(** * jsonstate: a hierarchical status tree

    Shallow embedding of [jsonstate.go] and the properties of its
    operations: [LevelString], [Apply], [Set], [Add], [FindBySource],
    [AggregateLevels], [Flatten] and [String].

    Modelling conventions.
    - Go's [int] is modelled by [Z].  The package never does arithmetic on a
      level (levels are only compared and copied); the only addition is
      [depth + 1] in [rflat], which cannot reach the 64-bit bound on a tree
      that fits in memory.
    - Go's [string] is modelled by [string] (a sequence of 8-bit characters).
    - [Tree []*State] is modelled by [option (list State)]: [None] is the nil
      slice, [Some nil] the empty non-nil slice.  The package distinguishes
      both ([s.Tree == nil]).
    - The methods [Set] and [String] are named [Set_] and [String_]: [Set]
      is a sort and [String] a constructor of [string].
    - A [*State] receiver is mutated in place; the model threads the state
      explicitly: every mutating method returns the node after the call.
      Children are owned by their parent (no node is reachable twice, no
      element of a [Tree] is a nil pointer), so a pointer to a child is the
      child's position in its parent's [Tree]. *)

From Stdlib Require Import ZArith List String Ascii Bool Lia.
From Stdlib Require Import DecimalString.
Import ListNotations.

Open Scope string_scope.
Open Scope list_scope.
Open Scope Z_scope.

(** ** Data model *)

Definition StateUnknown : Z := 0.
Definition StateDisabled : Z := 100.
Definition StateOk : Z := 200.
Definition StateAttention : Z := 300.
Definition StateWarning : Z := 400.
Definition StateError : Z := 500.
Definition StateFault : Z := 600.
Definition StatePanic : Z := 700.

#[local] Set Warnings "-register-all".

Inductive State : Type := mkState {
  Level : Z;
  Source : string;
  Message : string;
  Tree : option (list State);
  Override : bool
}.

Record FlatState : Type := mkFlatState {
  fDepth : Z;
  fLevel : Z;
  fSource : string;
  fMessage : string;
  fOverride : bool
}.

(** Field updates, written [s.Level = v] in the source. *)
Definition set_Level (v : Z) (s : State) : State :=
  mkState v (Source s) (Message s) (Tree s) (Override s).
Definition set_Message (v : string) (s : State) : State :=
  mkState (Level s) (Source s) v (Tree s) (Override s).
Definition set_Tree (v : option (list State)) (s : State) : State :=
  mkState (Level s) (Source s) (Message s) v (Override s).
Definition set_Override (v : bool) (s : State) : State :=
  mkState (Level s) (Source s) (Message s) (Tree s) v.

(** Induction over the tree, with the hypothesis on every child. *)
Definition State_rect'
  (P : State -> Type) (Q : list State -> Type)
  (Hnil : Q [])
  (Hcons : forall c cs, P c -> Q cs -> Q (c :: cs))
  (Hleaf : forall l src m ov, P (mkState l src m None ov))
  (Hnode : forall l src m cs ov, Q cs -> P (mkState l src m (Some cs) ov))
  : forall s, P s :=
  fix F (s : State) : P s :=
    match s with
    | mkState l src m None ov => Hleaf l src m ov
    | mkState l src m (Some cs) ov =>
        Hnode l src m cs ov
          ((fix G (cs : list State) : Q cs :=
              match cs with
              | [] => Hnil
              | c :: cs' => Hcons c cs' (F c) (G cs')
              end) cs)
    end.

Lemma State_ind' (P : State -> Prop) :
  (forall l src m ov, P (mkState l src m None ov)) ->
  (forall l src m cs ov, Forall P cs -> P (mkState l src m (Some cs) ov)) ->
  forall s, P s.
Proof.
  intros Hleaf Hnode.
  apply (State_rect' P (Forall P)); auto.
Qed.

(** ** Constructor and severity scale *)

Definition New (source : string) : State :=
  mkState 0 source "" None false.

Definition LevelString (level : Z) : string :=
  if (level <? 100)%Z then "Unknown"
  else if (level <? 200)%Z then "Disabled"
  else if (level <? 300)%Z then "OK"
  else if (level <? 400)%Z then "Attention"
  else if (level <? 500)%Z then "Warning"
  else if (level <? 600)%Z then "Error"
  else if (level <? 700)%Z then "Fault"
  else "Panic".

(** ** Apply: the override merge *)

(** The body of the loop over [override.Tree]: [list] is either all of
    [s.Tree] (wildcard) or the children of [s] whose source equals
    [override_it.Source]; the override is applied to every child in [list],
    the others are left as they are.  [app] is the recursive call
    [s_it.Apply(override_it)]. *)
Definition in_list (override_it s_it : State) : bool :=
  if negb (Source override_it =? "*")%string
  then (Source s_it =? Source override_it)%string
  else true.

Definition apply_each (app : State -> State -> State)
    (tree : list State) (override_it : State) : list State :=
  map (fun s_it => if in_list override_it s_it then app s_it override_it else s_it)
      tree.

(** [Apply_node s override] is [s.Apply(override)] for a non-nil
    [override]; the recursion is on the override tree.  [replace_fields] is
    the first conditional of the method. *)
Definition replace_fields (s override : State) : State :=
  if negb (Source override =? Source s)%string
  then set_Message (Message override)
         (set_Level (Level override) (set_Override true s))
  else s.

Fixpoint Apply_node (s override : State) {struct override} : State :=
  let s := replace_fields s override in
  match Tree override, Tree s with
  | Some otree, Some stree =>
      set_Tree (Some (fold_left (apply_each Apply_node) otree stree)) s
  | _, _ => s
  end.

Definition Apply (s : State) (override : option State) : State :=
  match override with
  | None => s
  | Some o => Apply_node s o
  end.

(** ** Set, Add *)

Definition Set_ (s : State) (level : Z) (message : string) : State :=
  set_Message message (set_Level level s).

(** Go's [append] on a slice: appending to the nil slice allocates. *)
Definition append (tree : option (list State)) (s_it : State)
  : option (list State) :=
  match tree with
  | None => Some [s_it]
  | Some l => Some (l ++ [s_it])
  end.

Definition Add (s : State) (s_list : list State) : State :=
  fold_left (fun s s_it => set_Tree (append (Tree s) s_it) s) s_list s.

(** ** FindBySource *)

(** Go's [len] of a slice. *)
Definition len {A : Type} (l : list A) : Z := Z.of_nat (List.length l).

(** The loop over [s.Tree] returns at the first child whose source is
    [source], which [find] selects; a returned [*State] is modelled by the
    node it points to, the nil pointer by [None]. *)
Fixpoint FindBySource (s : State) (source_path : list string)
    {struct source_path} : option State :=
  match Tree s with
  | None => None
  | Some tree =>
      match source_path with
      | source :: rest =>
          match find (fun s_it => (Source s_it =? source)%string) tree with
          | Some s_it =>
              if len source_path >? 1
              then FindBySource s_it rest
              else Some s_it
          | None => None
          end
      | [] => None
      end
  end.

(** ** AggregateLevels *)

(** The loop carries [maxLevel] and the children already aggregated. *)
Fixpoint AggregateLevels (s : State) : State :=
  match Tree s with
  | None => s
  | Some tree =>
      let '(maxLevel, tree') :=
        fold_left
          (fun '(maxLevel, done) s_it =>
             let s_it := AggregateLevels s_it in
             (if Level s_it >? maxLevel then Level s_it else maxLevel,
              done ++ [s_it]))
          tree (0, []) in
      set_Level maxLevel (set_Tree (Some tree') s)
  end.

(** ** Flatten and String *)

(** The [FlatState] literal of [rflat] names [Depth], [Level], [Source] and
    [Message]; [Override] keeps Go's zero value. *)
Fixpoint rflat (rs : State) (depth : Z) : list FlatState :=
  let list := [] in
  let list :=
    list ++ [mkFlatState depth (Level rs) (Source rs) (Message rs) false] in
  match Tree rs with
  | Some tree =>
      fold_left
        (fun list rs_it =>
           fold_left (fun list rss => list ++ [rss])
                     (rflat rs_it (depth + 1)) list)
        tree list
  | None => list
  end.

Definition Flatten (s : State) : list FlatState := rflat s 0.

(** [fmt.Sprintf("%d", n)]: the decimal numeral, with a minus sign for a
    negative number. *)
Definition Sprintf_d (n : Z) : string :=
  NilZero.string_of_int (Z.to_int n).

(** [strings.Builder]: the text written so far. *)
Definition Builder : Type := string.
Definition WriteString (sb : Builder) (x : string) : Builder :=
  (sb ++ x)%string.

(** The line feed written at the end of every entry. *)
Definition newline : string := String (ascii_of_nat 10) EmptyString.

Definition String_ (s : State) : string :=
  fold_left
    (fun (sb : Builder) item =>
       let sb :=
         Nat.iter (Z.to_nat (fDepth item))
                  (fun sb => WriteString sb "  ") sb in
       let sb :=
         if negb (fSource item =? "")%string
         then WriteString sb ("- [" ++ fSource item ++ "]: ")%string
         else sb in
       let sb :=
         WriteString sb
           (Sprintf_d (fLevel item) ++ " " ++ LevelString (fLevel item))%string in
       let sb :=
         if negb (fMessage item =? "")%string
         then WriteString (WriteString sb ": ") (fMessage item)
         else sb in
       WriteString sb newline)
    (Flatten s) "".

(** ** Shape of a tree

    What [Apply] must not change: the nodes, their sources and the child
    structure, with the nil and the empty child list kept apart. *)

Inductive Shape : Type :=
| ShapeNode : string -> option (list Shape) -> Shape.

Fixpoint shape (s : State) : Shape :=
  ShapeNode (Source s)
            (match Tree s with
             | None => None
             | Some tree => Some (map shape tree)
             end).

Fixpoint node_count (s : State) : nat :=
  S (match Tree s with
     | None => 0
     | Some tree => fold_right (fun c n => node_count c + n)%nat 0%nat tree
     end).

(** ** Paths

    [Reaches s path n]: following [path] from [s], one child per element,
    each time to the first child with that source, ends at [n]. *)

Inductive Reaches : State -> list string -> State -> Prop :=
| Reaches_here (s : State) : Reaches s [] s
| Reaches_child (s : State) (pre : list State) (c : State)
    (post : list State) (source : string) (rest : list string) (n : State) :
    Tree s = Some (pre ++ c :: post) ->
    Forall (fun c' => Source c' <> source) pre ->
    Source c = source ->
    Reaches c rest n ->
    Reaches s (source :: rest) n.

(** ** Maximum of a list of levels *)

Definition is_max (m : Z) (levels : list Z) : Prop :=
  In m levels /\ Forall (fun x => x <= m) levels.

(** A node whose only child reports a level below [StateUnknown]. *)
Definition negative_child : State :=
  Add (New "root") [Set_ (New "a") (-5) ""].

(** The greatest of [m] and the elements of [levels]. *)
Definition max_from (m : Z) (levels : list Z) : Z :=
  fold_left Z.max levels m.

(** ** Addressing nodes

    A node of a tree is addressed by the list of child positions that leads
    to it from the root.  [preorder_index] is the rank of the addressed
    node when a node comes before its children and the children, each with
    its whole subtree, come in their order in [Tree]. *)

Fixpoint node_at (s : State) (path : list nat) : option State :=
  match path with
  | [] => Some s
  | i :: path' =>
      match Tree s with
      | None => None
      | Some tree =>
          match nth_error tree i with
          | None => None
          | Some c => node_at c path'
          end
      end
  end.

Definition count_nodes (tree : list State) : nat :=
  fold_right (fun c n => node_count c + n)%nat 0%nat tree.

Fixpoint preorder_index (s : State) (path : list nat) : option nat :=
  match path with
  | [] => Some 0%nat
  | i :: path' =>
      match Tree s with
      | None => None
      | Some tree =>
          match nth_error tree i with
          | None => None
          | Some c =>
              option_map (fun k => S (count_nodes (firstn i tree) + k))
                         (preorder_index c path')
          end
      end
  end.

(** [e] is the entry of node [n] at depth [depth], as far as depth, level,
    source and message go. *)
Definition entry_of (n : State) (depth : Z) (e : FlatState) : Prop :=
  fDepth e = depth /\ fLevel e = Level n /\
  fSource e = Source n /\ fMessage e = Message n.

(** ** Rendering, entry by entry

    The text of one entry as the documentation of [String] describes it,
    and the concatenation of a list of texts. *)

Definition spaces (n : nat) : string :=
  string_of_list_ascii (repeat " "%char n).

Definition render_entry (e : FlatState) : string :=
  (spaces (2 * Z.to_nat (fDepth e))
   ++ match fSource e with
      | EmptyString => ""
      | _ => "- [" ++ fSource e ++ "]: "
      end
   ++ Sprintf_d (fLevel e) ++ " " ++ LevelString (fLevel e)
   ++ match fMessage e with
      | EmptyString => ""
      | _ => ": " ++ fMessage e
      end
   ++ newline)%string.

Definition concat_all (texts : list string) : string :=
  fold_right String.append "" texts.

(** ** Override trees without wildcard *)

Fixpoint wildcard_free (o : State) : bool :=
  match Tree o with
  | None => true
  | Some otree =>
      forallb (fun oc => negb (Source oc =? "*")%string && wildcard_free oc)
              otree
  end.

(** ** Leaves

    The levels of the nodes with nil children below (or at) a node, from
    left to right: the levels that aggregation takes as given. *)

Fixpoint leaf_levels (s : State) : list Z :=
  match Tree s with
  | None => [Level s]
  | Some tree => flat_map leaf_levels tree
  end.

(** ** The effect of an override on one node

    [selects override_it source]: a child with that source is in the
    [list] that [Apply] builds for [override_it].

    [effect override sh path]: the level and message that [Apply] with
    [override] leaves in the node at [path] of a tree of shape [sh], or
    [None] when it leaves that node alone.  At the root the override's own
    fields count, when the sources differ; below child [i], the last
    override child that selects child [i] and has an effect on the node
    decides.  Only sources and child structure of the tree enter. *)

Definition selects (override_it : State) (source : string) : bool :=
  if negb (Source override_it =? "*")%string
  then (source =? Source override_it)%string
  else true.

Definition shape_source (sh : Shape) : string :=
  match sh with ShapeNode source _ => source end.

Definition shape_tree (sh : Shape) : option (list Shape) :=
  match sh with ShapeNode _ tree => tree end.

Fixpoint effect (override : State) (sh : Shape) (path : list nat)
    {struct path} : option (Z * string) :=
  match path with
  | [] =>
      if negb (Source override =? shape_source sh)%string
      then Some (Level override, Message override)
      else None
  | i :: path' =>
      match Tree override, shape_tree sh with
      | Some otree, Some tree =>
          match nth_error tree i with
          | Some child =>
              fold_left
                (fun acc override_it =>
                   if selects override_it (shape_source child)
                   then match effect override_it child path' with
                        | Some e => Some e
                        | None => acc
                        end
                   else acc)
                otree None
          | None => None
          end
      | _, _ => None
      end
  end.

(** [n'] is [n] with the fields replaced as [e] says. *)
Definition overridden (e : option (Z * string)) (n n' : State) : Prop :=
  match e with
  | Some (level, message) =>
      Level n' = level /\ Message n' = message /\ Override n' = true
  | None =>
      Level n' = Level n /\ Message n' = Message n /\
      Override n' = Override n
  end.

(** ** Indentation

    [steps_ok prev entries]: along [entries], coming from depth [prev],
    the depth never grows by more than one from an entry to the next. *)

Fixpoint last_depth (prev : Z) (entries : list FlatState) : Z :=
  match entries with
  | [] => prev
  | e :: entries' => last_depth (fDepth e) entries'
  end.

Fixpoint steps_ok (prev : Z) (entries : list FlatState) : Prop :=
  match entries with
  | [] => True
  | e :: entries' => fDepth e <= prev + 1 /\ steps_ok (fDepth e) entries'
  end.

(** * Properties *)

(** ** Severity scale *)

Lemma LevelString_cases (level : Z) :
  (level < 100 /\ LevelString level = "Unknown") \/
  (100 <= level < 200 /\ LevelString level = "Disabled") \/
  (200 <= level < 300 /\ LevelString level = "OK") \/
  (300 <= level < 400 /\ LevelString level = "Attention") \/
  (400 <= level < 500 /\ LevelString level = "Warning") \/
  (500 <= level < 600 /\ LevelString level = "Error") \/
  (600 <= level < 700 /\ LevelString level = "Fault") \/
  (700 <= level /\ LevelString level = "Panic").
Proof.
  unfold LevelString.
  repeat match goal with
         | |- context [(?a <? ?b)%Z] => destruct (Z.ltb_spec a b)
         end;
    intuition lia.
Qed.

Ltac band level :=
  destruct (LevelString_cases level)
    as [[? E]|[[? E]|[[? E]|[[? E]|[[? E]|[[? E]|[[? E]|[? E]]]]]]]];
  rewrite E;
  repeat match goal with |- _ /\ _ => split end;
  split; intro; (reflexivity || lia || discriminate).

(** C5: every integer level is named by the band whose half-open interval
    contains it: below 100 (negative levels included) "Unknown", then
    "Disabled", "OK", "Attention", "Warning", "Error", "Fault" in steps of
    100, and "Panic" from 700 on; the listed sample levels are named
    accordingly. *)
Theorem LevelString_bands :
  (forall level : Z,
      (LevelString level = "Unknown" <-> level < 100) /\
      (LevelString level = "Disabled" <-> 100 <= level < 200) /\
      (LevelString level = "OK" <-> 200 <= level < 300) /\
      (LevelString level = "Attention" <-> 300 <= level < 400) /\
      (LevelString level = "Warning" <-> 400 <= level < 500) /\
      (LevelString level = "Error" <-> 500 <= level < 600) /\
      (LevelString level = "Fault" <-> 600 <= level < 700) /\
      (LevelString level = "Panic" <-> 700 <= level)) /\
  LevelString 0 = "Unknown" /\ LevelString 199 = "Disabled" /\
  LevelString 200 = "OK" /\ LevelString 699 = "Fault" /\
  LevelString 700 = "Panic" /\ LevelString 50000 = "Panic".
Proof.
  split; [| repeat split].
  intro level; band level.
Qed.

(** ** Add *)

(** [Add] appends the new children after the present ones, in call order;
    without arguments it leaves the node, and a nil [Tree], as they are. *)
Lemma Add_Tree (s_list : list State) :
  forall s,
    Add s [] = s /\
    (s_list <> [] ->
     Tree (Add s s_list) =
     Some (match Tree s with None => [] | Some tree => tree end ++ s_list)).
Proof.
  unfold Add.
  induction s_list as [| c s_list IH]; intro s; split; auto;
    [congruence|]; intros _.
  destruct s_list as [| c' s_list].
  - destruct s as [? ? ? [?|] ?]; reflexivity.
  - cbn [fold_left] in *.
    rewrite (proj2 (IH _)) by discriminate.
    destruct s as [? ? ? [?|] ?]; simpl; rewrite <- ?app_assoc; reflexivity.
Qed.

(** ** Apply *)

Section ApplyFacts.

Lemma Apply_node_eq (s o : State) :
  Apply_node s o =
  match Tree o, Tree (replace_fields s o) with
  | Some otree, Some stree =>
      set_Tree (Some (fold_left (apply_each Apply_node) otree stree))
               (replace_fields s o)
  | _, _ => replace_fields s o
  end.
Proof. destruct o; reflexivity. Qed.

Lemma replace_fields_Source s o : Source (replace_fields s o) = Source s.
Proof. unfold replace_fields; destruct (negb _); reflexivity. Qed.

Lemma replace_fields_Tree s o : Tree (replace_fields s o) = Tree s.
Proof. unfold replace_fields; destruct (negb _); reflexivity. Qed.

Lemma replace_fields_neq s o :
  Source o <> Source s ->
  replace_fields s o = mkState (Level o) (Source s) (Message o) (Tree s) true.
Proof.
  intro H; unfold replace_fields.
  apply String.eqb_neq in H; rewrite H; reflexivity.
Qed.

Lemma replace_fields_eq s o :
  Source o = Source s -> replace_fields s o = s.
Proof.
  intro H; unfold replace_fields.
  apply String.eqb_eq in H; rewrite H; reflexivity.
Qed.

(** The descent only rewrites the [Tree] field. *)
Lemma Apply_node_head (s o : State) :
  Level (Apply_node s o) = Level (replace_fields s o) /\
  Source (Apply_node s o) = Source s /\
  Message (Apply_node s o) = Message (replace_fields s o) /\
  Override (Apply_node s o) = Override (replace_fields s o).
Proof.
  rewrite Apply_node_eq, <- (replace_fields_Source s o).
  destruct (Tree o), (Tree (replace_fields s o)); repeat split.
Qed.

Lemma Apply_node_Source s o : Source (Apply_node s o) = Source s.
Proof. apply Apply_node_head. Qed.

Lemma in_list_wildcard oc sc : Source oc = "*" -> in_list oc sc = true.
Proof. intro H; unfold in_list; rewrite H; reflexivity. Qed.

Lemma in_list_exact oc sc :
  Source oc <> "*" -> in_list oc sc = true -> Source oc = Source sc.
Proof.
  intros H; unfold in_list.
  apply String.eqb_neq in H; rewrite H; simpl.
  intro E; apply String.eqb_eq in E; auto.
Qed.

Lemma in_list_unmatched oc sc :
  Source oc <> "*" -> Source sc <> Source oc -> in_list oc sc = false.
Proof.
  intros H1 H2; unfold in_list.
  apply String.eqb_neq in H1, H2; rewrite H1, H2; reflexivity.
Qed.

Lemma apply_each_nth app stree oc i :
  nth_error (apply_each app stree oc) i =
  option_map (fun sc => if in_list oc sc then app sc oc else sc)
             (nth_error stree i).
Proof. unfold apply_each; apply nth_error_map. Qed.

End ApplyFacts.

(** C1: for a non-nil override, [Apply] replaces the level and the message
    of [s] by the override's and sets the override flag exactly when the
    two sources differ; with equal sources the three fields are left as
    they were.  Consequently, under a parent, an override child that is not
    the wildcard leaves level and message of every child of [s] unchanged
    (a matched candidate has the override child's own source), and the
    wildcard override child replaces the fields of every child whose source
    is not the wildcard itself. *)
Theorem Apply_field_replacement :
  (forall s o : State,
      (Source o <> Source s ->
       Level (Apply s (Some o)) = Level o /\
       Message (Apply s (Some o)) = Message o /\
       Override (Apply s (Some o)) = true) /\
      (Source o = Source s ->
       Level (Apply s (Some o)) = Level s /\
       Message (Apply s (Some o)) = Message s /\
       Override (Apply s (Some o)) = Override s)) /\
  (forall (sc oc : State),
      Source oc <> "*" -> in_list oc sc = true ->
      Source oc = Source sc /\
      Level (Apply sc (Some oc)) = Level sc /\
      Message (Apply sc (Some oc)) = Message sc) /\
  (forall (s o oc sc : State) (stree : list State) (i : nat),
      Tree s = Some stree -> Tree o = Some [oc] ->
      nth_error stree i = Some sc ->
      exists stree' sc',
        Tree (Apply s (Some o)) = Some stree' /\
        nth_error stree' i = Some sc' /\
        Source sc' = Source sc /\
        (Source oc <> "*" ->
         Level sc' = Level sc /\ Message sc' = Message sc /\
         Override sc' = Override sc) /\
        (Source oc = "*" -> Source sc <> "*" ->
         Level sc' = Level oc /\ Message sc' = Message oc /\
         Override sc' = true)).
Proof.
  assert (Hstep : forall s o : State,
      (Source o <> Source s ->
       Level (Apply s (Some o)) = Level o /\
       Message (Apply s (Some o)) = Message o /\
       Override (Apply s (Some o)) = true) /\
      (Source o = Source s ->
       Level (Apply s (Some o)) = Level s /\
       Message (Apply s (Some o)) = Message s /\
       Override (Apply s (Some o)) = Override s)).
  { intros s o; simpl.
    destruct (Apply_node_head s o) as (HL & _ & HM & HO).
    rewrite HL, HM, HO; split; intro H.
    - rewrite (replace_fields_neq _ _ H); auto.
    - rewrite (replace_fields_eq _ _ H); auto. }
  split; [exact Hstep|]; split.
  - intros sc oc Hw Hin.
    pose proof (in_list_exact _ _ Hw Hin) as E.
    destruct (Hstep sc oc) as [_ Heq].
    destruct (Heq E) as (HL & HM & _); auto.
  - intros s o oc sc stree i Hs Ho Hi.
    exists (apply_each Apply_node stree oc).
    exists (if in_list oc sc then Apply_node sc oc else sc).
    split; [|split; [|split; [|split]]].
    + simpl; rewrite Apply_node_eq, Ho, replace_fields_Tree, Hs.
      reflexivity.
    + rewrite apply_each_nth, Hi; reflexivity.
    + destruct (in_list oc sc); auto using Apply_node_Source.
    + intro Hw.
      destruct (in_list oc sc) eqn:Hin; auto.
      pose proof (in_list_exact _ _ Hw Hin) as E.
      destruct (Hstep sc oc) as [_ Heq]; apply (Heq E).
    + intros Hw Hsc.
      rewrite (in_list_wildcard _ _ Hw).
      destruct (Hstep sc oc) as [Hneq _]; apply Hneq.
      rewrite Hw; congruence.
Qed.

(** C4: a wildcard override child under a root of the same source sets
    both children to level 500, message "x" and override flag true, and
    leaves level, message and override flag of the root as they were. *)
Theorem Apply_wildcard_example :
  forall (root : string) (level : Z) (message : string) (flag : bool)
         (olevel : Z) (omessage : string) (oflag : bool),
    let s :=
      mkState level root message
              (Some [Set_ (New "a") 200 ""; Set_ (New "b") 200 ""]) flag in
    let override :=
      mkState olevel root omessage (Some [Set_ (New "*") 500 "x"]) oflag in
    Apply s (Some override) =
    mkState level root message
            (Some [mkState 500 "a" "x" None true;
                   mkState 500 "b" "x" None true]) flag.
Proof.
  intros; subst s override.
  simpl; unfold replace_fields; simpl.
  rewrite String.eqb_refl; reflexivity.
Qed.

Section ApplyShape.

Lemma shape_node_count (s t : State) :
  shape s = shape t -> node_count s = node_count t.
Proof.
  revert t; induction s as [l src m ov | l src m cs ov IH] using State_ind';
    intros [l' src' m' [cs'|] ov']; simpl; intro H; try congruence.
  injection H as _ H; f_equal.
  revert cs' H; induction IH as [| c cs Hc _ IHcs]; intros [| c' cs'];
    simpl; intro H; try congruence.
  injection H as H1 H2.
  rewrite (Hc _ H1), (IHcs _ H2); reflexivity.
Qed.

Lemma replace_fields_shape s o : shape (replace_fields s o) = shape s.
Proof. unfold replace_fields; destruct (negb _), s; reflexivity. Qed.

Lemma set_Tree_shape s tree tree' :
  Tree s = Some tree -> map shape tree' = map shape tree ->
  shape (set_Tree (Some tree') s) = shape s.
Proof. destruct s; simpl; intros -> ->; reflexivity. Qed.

Lemma apply_each_shape (oc : State) (stree : list State) :
  (forall s, shape (Apply_node s oc) = shape s) ->
  map shape (apply_each Apply_node stree oc) = map shape stree.
Proof.
  intro H; unfold apply_each; rewrite map_map.
  apply map_ext; intro sc; destruct (in_list oc sc); auto.
Qed.

Lemma Apply_node_shape (o s : State) : shape (Apply_node s o) = shape s.
Proof.
  revert s; induction o as [l src m ov | l src m otree ov IH] using State_ind';
    intro s; rewrite Apply_node_eq; simpl Tree at 1.
  - apply replace_fields_shape.
  - destruct (Tree (replace_fields s _)) as [stree|] eqn:Hs;
      [| apply replace_fields_shape].
    etransitivity; [| apply replace_fields_shape].
    apply (set_Tree_shape _ _ _ Hs).
    clear Hs; revert stree.
    induction IH as [| oc otree Hoc _ IHo]; intro stree; simpl; auto.
    rewrite IHo; apply apply_each_shape, Hoc.
Qed.

Lemma apply_each_unmatched (app : State -> State -> State) stree oc :
  Source oc <> "*" ->
  (forall sc, In sc stree -> Source sc <> Source oc) ->
  apply_each app stree oc = stree.
Proof.
  intros Hw Hno; unfold apply_each.
  rewrite <- (map_id stree) at 2.
  apply map_ext_in; intros sc Hin.
  rewrite (in_list_unmatched _ _ Hw (Hno _ Hin)); reflexivity.
Qed.

Lemma shape_Source s t : shape s = shape t -> Source s = Source t.
Proof. destruct s, t; simpl; congruence. Qed.

Lemma map_shape_Source (l l' : list State) :
  map shape l = map shape l' -> map Source l = map Source l'.
Proof.
  revert l'; induction l as [| a l IH]; intros [| a' l']; simpl;
    intro H; try congruence.
  injection H as H1 H2.
  rewrite (shape_Source _ _ H1), (IH _ H2); reflexivity.
Qed.

Lemma fold_apply_each_shape (otree stree : list State) :
  map shape (fold_left (apply_each Apply_node) otree stree) = map shape stree.
Proof.
  revert stree; induction otree as [| oc otree IH]; intro stree; simpl; auto.
  rewrite IH; apply apply_each_shape; intro; apply Apply_node_shape.
Qed.

End ApplyShape.

Lemma fold_apply_each_id (otree : list State) :
  (forall oc, In oc otree ->
              forall stree, apply_each Apply_node stree oc = stree) ->
  forall stree, fold_left (apply_each Apply_node) otree stree = stree.
Proof.
  induction otree as [| oc otree IH]; intros H stree; simpl; [reflexivity|].
  rewrite (H oc (or_introl eq_refl)).
  apply IH; intros; apply H; simpl; auto.
Qed.

(** C2: [Apply] neither creates nor removes a node: the tree keeps its
    shape (same nodes, same sources, same child structure, so only level,
    message and override flag can differ); the children are left as they
    are when the override or the node has nil children; and an override
    child that is not the wildcard and whose source is the source of no
    child of the node is ignored. *)
Theorem Apply_preserves_shape :
  forall (s : State) (override : option State),
    shape (Apply s override) = shape s /\
    node_count (Apply s override) = node_count s /\
    Source (Apply s override) = Source s /\
    (forall o, override = Some o -> Tree o = None \/ Tree s = None ->
               Tree (Apply s override) = Tree s) /\
    (forall o stree pre oc post,
        override = Some o ->
        Tree s = Some stree -> Tree o = Some (pre ++ oc :: post) ->
        Source oc <> "*" ->
        (forall sc, In sc stree -> Source sc <> Source oc) ->
        Apply s override = Apply s (Some (set_Tree (Some (pre ++ post)) o))).
Proof.
  intros s override.
  assert (Hshape : shape (Apply s override) = shape s).
  { destruct override as [o|]; simpl; auto using Apply_node_shape. }
  split; [exact Hshape|].
  split; [apply shape_node_count, Hshape|].
  split; [apply shape_Source, Hshape|].
  split.
  - intros o -> H; simpl; rewrite Apply_node_eq.
    destruct H as [H | H].
    + rewrite H; apply replace_fields_Tree.
    + rewrite (replace_fields_Tree s o), H.
      destruct (Tree o); rewrite replace_fields_Tree; exact H.
  - intros o stree pre oc post -> Hs Ho Hw Hno; unfold Apply.
    rewrite !Apply_node_eq.
    assert (E : replace_fields s (set_Tree (Some (pre ++ post)) o)
                = replace_fields s o) by (destruct o; reflexivity).
    rewrite E, Ho, replace_fields_Tree, Hs.
    destruct o; simpl.
    do 2 f_equal.
    rewrite !fold_left_app; simpl; f_equal.
    apply apply_each_unmatched; auto.
    intros sc Hin.
    apply (in_map Source) in Hin.
    rewrite (map_shape_Source _ _ (fold_apply_each_shape pre stree)) in Hin.
    apply in_map_iff in Hin; destruct Hin as (sc0 & <- & Hin0); auto.
Qed.

(** ** FindBySource *)

Section FindFacts.

Lemma find_first {A : Type} (f : A -> bool) (l : list A) (x : A) :
  find f l = Some x <->
  exists pre post,
    l = pre ++ x :: post /\ f x = true /\ Forall (fun y => f y = false) pre.
Proof.
  split.
  - induction l as [| a l IH]; simpl; [discriminate|].
    destruct (f a) eqn:Ha.
    + intros [= ->]; exists [], l; auto.
    + intro H; destruct (IH H) as (pre & post & -> & Hx & Hpre).
      exists (a :: pre), post; auto.
  - intros (pre & post & -> & Hx & Hpre).
    induction Hpre as [| a pre Ha _ IH]; simpl.
    + rewrite Hx; reflexivity.
    + rewrite Ha; exact IH.
Qed.

Lemma FindBySource_cons (s : State) (source : string) (rest : list string) :
  FindBySource s (source :: rest) =
  match Tree s with
  | None => None
  | Some tree =>
      match find (fun s_it => (Source s_it =? source)%string) tree with
      | Some s_it =>
          match rest with
          | [] => Some s_it
          | _ :: _ => FindBySource s_it rest
          end
      | None => None
      end
  end.
Proof.
  destruct rest as [| x r]; [reflexivity|].
  cbn [FindBySource].
  replace (len (source :: x :: r) >? 1) with true; [reflexivity|].
  unfold len; cbn [List.length].
  symmetry; apply Z.gtb_lt; lia.
Qed.

Lemma find_Source_first (tree : list State) (source : string) (c : State) :
  find (fun s_it => (Source s_it =? source)%string) tree = Some c <->
  exists pre post,
    tree = pre ++ c :: post /\ Source c = source /\
    Forall (fun c' => Source c' <> source) pre.
Proof.
  rewrite find_first; split; intros (pre & post & -> & Hc & Hpre);
    exists pre, post; (split; [reflexivity|]); split.
  - apply String.eqb_eq, Hc.
  - eapply Forall_impl; [| exact Hpre].
    intros a Ha; apply String.eqb_neq, Ha.
  - apply String.eqb_eq, Hc.
  - eapply Forall_impl; [| exact Hpre].
    intros a Ha; apply String.eqb_neq, Ha.
Qed.

Lemma FindBySource_Reaches (rest : list string) :
  forall (s : State) (source : string) (n : State),
    FindBySource s (source :: rest) = Some n <->
    Reaches s (source :: rest) n.
Proof.
  induction rest as [| x r IH]; intros s source n;
    rewrite FindBySource_cons; split.
  - destruct (Tree s) as [tree|] eqn:Hs; [| discriminate].
    destruct (find _ tree) as [c|] eqn:Hf; [| discriminate].
    intros [= ->].
    apply find_Source_first in Hf; destruct Hf as (pre & post & -> & Hc & Hp).
    eapply Reaches_child; eauto using Reaches_here.
  - intro H; inversion H as [| s0 pre c post src rs n0 Hs Hp Hc Hr]; subst.
    inversion Hr; subst.
    rewrite Hs.
    replace (find _ _) with (Some n); [reflexivity|].
    symmetry; apply find_Source_first; eauto.
  - destruct (Tree s) as [tree|] eqn:Hs; [| discriminate].
    destruct (find _ tree) as [c|] eqn:Hf; [| discriminate].
    intro H; apply IH in H.
    apply find_Source_first in Hf; destruct Hf as (pre & post & -> & Hc & Hp).
    eapply Reaches_child; eauto.
  - intro H; inversion H as [| s0 pre c post src rs n0 Hs Hp Hc Hr]; subst.
    rewrite Hs.
    replace (find _ _) with (Some c);
      [apply IH, Hr | symmetry; apply find_Source_first; eauto].
Qed.

End FindFacts.

(** C8: for a non-empty path, [FindBySource] returns the node reached by
    descending one child per path element, each time to the first child
    whose source equals the element, and returns nil (never a fault: the
    function is total) when no node is reached that way, in particular when
    the node has nil children or no child carries the first source. *)
Theorem FindBySource_descends :
  forall (s : State) (source : string) (rest : list string),
    (forall n, FindBySource s (source :: rest) = Some n <->
               Reaches s (source :: rest) n) /\
    (FindBySource s (source :: rest) = None <->
     forall n, ~ Reaches s (source :: rest) n) /\
    (Tree s = None -> forall path, FindBySource s path = None) /\
    (forall tree, Tree s = Some tree ->
                  Forall (fun c => Source c <> source) tree ->
                  FindBySource s (source :: rest) = None).
Proof.
  intros s source rest.
  assert (Hnone : FindBySource s (source :: rest) = None <->
                  forall n, ~ Reaches s (source :: rest) n).
  { split.
    - intros H n Hn; apply FindBySource_Reaches in Hn; congruence.
    - intro H; destruct (FindBySource s (source :: rest)) as [n|] eqn:E; auto.
      apply FindBySource_Reaches in E; destruct (H n E). }
  split; [apply FindBySource_Reaches|].
  split; [exact Hnone|].
  split.
  - intros Hs [| x r]; [| rewrite FindBySource_cons]; simpl;
      rewrite Hs; reflexivity.
  - intros tree Hs Hall; apply Hnone.
    intros n Hn; inversion Hn as [| s0 pre c post src rs n0 Hs' Hp Hc Hr]; subst.
    rewrite Hs in Hs'; injection Hs' as ->.
    rewrite Forall_forall in Hall.
    apply (Hall c); [apply in_elt | reflexivity].
Qed.

(** C10: with an empty path [FindBySource] returns nil, never the node
    itself, whatever the node's children are. *)
Theorem FindBySource_empty_path :
  forall s : State,
    FindBySource s [] = None /\ FindBySource s [] <> Some s.
Proof.
  intro s.
  assert (H : FindBySource s [] = None) by (destruct s as [? ? ? [?|] ?]; reflexivity).
  rewrite H; split; [reflexivity | discriminate].
Qed.

(** ** AggregateLevels *)

Section AggregateFacts.

Lemma AggregateLevels_loop (tree : list State) :
  forall (m : Z) (done : list State),
    fold_left
      (fun '(maxLevel, done) s_it =>
         let s_it := AggregateLevels s_it in
         (if Level s_it >? maxLevel then Level s_it else maxLevel,
          done ++ [s_it]))
      tree (m, done)
    = (max_from m (map Level (map AggregateLevels tree)),
       done ++ map AggregateLevels tree).
Proof.
  induction tree as [| c tree IH]; intros m done; simpl.
  - rewrite app_nil_r; reflexivity.
  - rewrite IH, <- app_assoc; simpl.
    replace (if Level (AggregateLevels c) >? m
             then Level (AggregateLevels c) else m)
      with (Z.max m (Level (AggregateLevels c))); [reflexivity|].
    destruct (Z.gtb_spec (Level (AggregateLevels c)) m); lia.
Qed.

Lemma AggregateLevels_eq (s : State) :
  AggregateLevels s =
  match Tree s with
  | None => s
  | Some tree =>
      set_Level (max_from 0 (map Level (map AggregateLevels tree)))
                (set_Tree (Some (map AggregateLevels tree)) s)
  end.
Proof.
  destruct s as [l src m [tree|] ov]; [| reflexivity].
  cbn [AggregateLevels Tree].
  rewrite AggregateLevels_loop; reflexivity.
Qed.

Lemma max_from_ge (levels : list Z) :
  forall m, m <= max_from m levels /\
            Forall (fun x => x <= max_from m levels) levels.
Proof.
  induction levels as [| x levels IH]; intro m; simpl.
  - split; [lia | constructor].
  - destruct (IH (Z.max m x)) as [H1 H2].
    split; [lia|]. constructor; [lia | exact H2].
Qed.

Lemma max_from_in (levels : list Z) :
  forall m, max_from m levels = m \/ In (max_from m levels) levels.
Proof.
  induction levels as [| x levels IH]; intro m; simpl; auto.
  destruct (IH (Z.max m x)) as [H | H]; auto.
  rewrite H; destruct (Z.max_spec m x) as [[_ ->] | [_ ->]]; auto.
Qed.

End AggregateFacts.

(** C3, as the code has it: a node with nil children is left unchanged; a
    node with non-nil children gets its children aggregated and then the
    greatest of 0 and the aggregated children's levels as its level: the
    level is at least 0 and at least every child's level, and is either 0 or
    some child's level.  Hence it is 0 for an empty child list, whatever
    [Set] assigned before, and it is the maximum of the children's levels
    as soon as one child has a non-negative level. *)
Theorem AggregateLevels_level :
  forall s : State,
    (Tree s = None -> AggregateLevels s = s) /\
    (forall tree, Tree s = Some tree ->
       let s' := AggregateLevels s in
       let tree' := map AggregateLevels tree in
       Tree s' = Some tree' /\
       Source s' = Source s /\ Message s' = Message s /\
       0 <= Level s' /\
       Forall (fun c => Level c <= Level s') tree' /\
       (Level s' = 0 \/ In (Level s') (map Level tree')) /\
       (Exists (fun c => 0 <= Level c) tree' ->
        is_max (Level s') (map Level tree')) /\
       (tree = [] ->
        forall level message,
          Level s' = 0 /\ Level (AggregateLevels (Set_ s level message)) = 0)).
Proof.
  intro s; split.
  - intro Hs; rewrite AggregateLevels_eq, Hs; reflexivity.
  - intros tree Hs s' tree'; subst s'.
    rewrite (AggregateLevels_eq s), Hs; fold tree'.
    cbn [Tree Level Source Message set_Level set_Tree].
    destruct (max_from_ge (map Level tree') 0) as [H0 Hall].
    pose proof (max_from_in (map Level tree') 0) as Hin.
    assert (Hall' : Forall (fun c => Level c <= max_from 0 (map Level tree'))
                           tree').
    { rewrite Forall_map in Hall; exact Hall. }
    repeat match goal with |- _ /\ _ => split end; auto.
    + intro Hex; split; [| exact Hall].
      destruct Hin as [E | Hin]; [| exact Hin].
      apply Exists_exists in Hex; destruct Hex as (c & Hc & Hpos).
      rewrite Forall_forall in Hall'; pose proof (Hall' c Hc) as Hle.
      replace (max_from 0 (map Level tree')) with (Level c) by lia.
      apply in_map, Hc.
    + intros -> level message; split; [reflexivity|].
      rewrite AggregateLevels_eq.
      unfold Set_; simpl; rewrite Hs; reflexivity.
Qed.

(** C3 as written fails on children that are all below 0: with one child
    of level -5 the aggregated level is 0, which is not the maximum of the
    children's levels. *)
Lemma AggregateLevels_negative_children :
  Tree negative_child = Some [Set_ (New "a") (-5) ""] /\
  Tree (AggregateLevels negative_child) = Some [Set_ (New "a") (-5) ""] /\
  Level (AggregateLevels negative_child) = 0 /\
  ~ is_max (Level (AggregateLevels negative_child))
           (map Level [Set_ (New "a") (-5) ""]) /\
  ~ (forall t tree', Tree (AggregateLevels t) = Some tree' ->
                     tree' <> [] ->
                     is_max (Level (AggregateLevels t)) (map Level tree')).
Proof.
  assert (Hno : ~ is_max 0 [-5]).
  { intros [[H | []] _]; discriminate. }
  simpl; repeat match goal with |- _ /\ _ => split end; auto.
  intro H.
  apply Hno.
  apply (H negative_child [Set_ (New "a") (-5) ""]);
    [reflexivity | discriminate].
Qed.

(** ** Flatten *)

Section FlattenFacts.

Lemma append_each {A : Type} (l acc : list A) :
  fold_left (fun list rss => list ++ [rss]) l acc = acc ++ l.
Proof.
  revert acc; induction l as [| x l IH]; intro acc; simpl.
  - rewrite app_nil_r; reflexivity.
  - rewrite IH, <- app_assoc; reflexivity.
Qed.

Lemma rflat_loop (f : State -> list FlatState) (tree : list State) :
  forall acc,
    fold_left
      (fun list rs_it => fold_left (fun list rss => list ++ [rss]) (f rs_it) list)
      tree acc
    = acc ++ flat_map f tree.
Proof.
  induction tree as [| c tree IH]; intro acc; simpl.
  - rewrite app_nil_r; reflexivity.
  - rewrite IH, append_each, <- app_assoc; reflexivity.
Qed.

(** The loops of [rflat] amount to: the node's entry, then the entries of
    each child's subtree, one child after the other. *)
Lemma rflat_eq (rs : State) (depth : Z) :
  rflat rs depth =
  mkFlatState depth (Level rs) (Source rs) (Message rs) false ::
  match Tree rs with
  | None => []
  | Some tree => flat_map (fun c => rflat c (depth + 1)) tree
  end.
Proof.
  destruct rs as [l src m [tree|] ov]; [| reflexivity].
  cbn [rflat Tree app].
  rewrite (rflat_loop (fun c => rflat c (depth + 1))); reflexivity.
Qed.

Lemma rflat_length (rs : State) :
  forall depth, List.length (rflat rs depth) = node_count rs.
Proof.
  induction rs as [l src m ov | l src m tree ov IH] using State_ind';
    intro depth; rewrite rflat_eq; simpl; [reflexivity|].
  f_equal.
  induction IH as [| c tree Hc _ IHt]; simpl; [reflexivity|].
  rewrite length_app, Hc, IHt; reflexivity.
Qed.

Lemma flat_map_rflat_length (tree : list State) (depth : Z) :
  List.length (flat_map (fun c => rflat c depth) tree) = count_nodes tree.
Proof.
  induction tree as [| c tree IH]; simpl; [reflexivity|].
  rewrite length_app, rflat_length, IH; reflexivity.
Qed.

Lemma count_nodes_app (l l' : list State) :
  count_nodes (l ++ l') = (count_nodes l + count_nodes l')%nat.
Proof.
  unfold count_nodes; induction l as [| c l IH]; simpl; [reflexivity|].
  rewrite IH; lia.
Qed.

Lemma nth_error_split_firstn {A : Type} (l : list A) (i : nat) (x : A) :
  nth_error l i = Some x -> l = firstn i l ++ x :: skipn (S i) l.
Proof.
  revert i; induction l as [| a l IH]; intros [| i]; simpl;
    try discriminate.
  - intros [= ->]; reflexivity.
  - intro H; f_equal; apply IH, H.
Qed.

Lemma preorder_index_lt (path : list nat) :
  forall s k, preorder_index s path = Some k -> (k < node_count s)%nat.
Proof.
  induction path as [| i path IH]; intros s k; simpl.
  - intros [= <-]; destruct s; simpl; lia.
  - destruct s as [l src m [tree|] ov]; simpl; [| discriminate].
    destruct (nth_error tree i) as [c|] eqn:Hi; [| discriminate].
    destruct (preorder_index c path) as [k'|] eqn:Hk; [| discriminate].
    intros [= <-].
    apply IH in Hk.
    fold (count_nodes tree).
    rewrite (nth_error_split_firstn _ _ _ Hi) at 2.
    rewrite count_nodes_app; simpl; lia.
Qed.

Lemma node_at_index (path : list nat) :
  forall s, (exists n, node_at s path = Some n) <->
            (exists k, preorder_index s path = Some k).
Proof.
  induction path as [| i path IH]; intro s; simpl.
  - split; eauto.
  - destruct (Tree s) as [tree|]; [| split; intros [? [=]]].
    destruct (nth_error tree i) as [c|]; [| split; intros [? [=]]].
    rewrite IH.
    destruct (preorder_index c path); simpl; split; intros [? H];
      (discriminate || eauto).
Qed.

Lemma rflat_nth (path : list nat) :
  forall s depth n k,
    node_at s path = Some n -> preorder_index s path = Some k ->
    exists e, nth_error (rflat s depth) k = Some e /\
              entry_of n (depth + Z.of_nat (List.length path)) e.
Proof.
  induction path as [| i path IH]; intros s depth n k; simpl.
  - intros [= <-] [= <-]; rewrite rflat_eq; simpl.
    eexists; split; [reflexivity|].
    unfold entry_of; simpl; repeat split; lia.
  - rewrite rflat_eq.
    destruct (Tree s) as [tree|]; [| discriminate].
    destruct (nth_error tree i) as [c|] eqn:Hi; [| discriminate].
    destruct (preorder_index c path) as [k'|] eqn:Hk; [| discriminate].
    intros Hn [= <-].
    destruct (IH c (depth + 1) n k' Hn Hk) as (e & He & Hent).
    exists e; split.
    + simpl.
      rewrite (nth_error_split_firstn _ _ _ Hi) at 1.
      rewrite flat_map_app; simpl.
      rewrite nth_error_app2;
        rewrite flat_map_rflat_length; [| lia].
      replace (count_nodes (firstn i tree) + k' - count_nodes (firstn i tree))%nat
        with k' by lia.
      rewrite nth_error_app1; [exact He|].
      rewrite rflat_length; eapply preorder_index_lt, Hk.
    + match goal with
      | |- entry_of _ ?d _ =>
          replace d with (depth + 1 + Z.of_nat (List.length path)) by lia
      end.
      exact Hent.
Qed.

Lemma firstn_count_le (tree : list State) (a b : nat) (c : State) :
  (a < b)%nat -> nth_error tree a = Some c ->
  (count_nodes (firstn a tree) + node_count c <= count_nodes (firstn b tree))%nat.
Proof.
  intros Hab Ha.
  rewrite (nth_error_split_firstn _ _ _ Ha) at 2.
  assert (Hlen : List.length (firstn a tree) = a).
  { apply firstn_length_le, Nat.lt_le_incl, nth_error_Some; congruence. }
  rewrite firstn_app, Hlen.
  rewrite (firstn_all2 (n := b)); [| rewrite Hlen; lia].
  destruct (b - a)%nat as [| d] eqn:E; [lia|].
  rewrite count_nodes_app; simpl; lia.
Qed.

Lemma preorder_ancestor_first (path : list nat) :
  forall s ext i j,
    ext <> [] ->
    preorder_index s path = Some i ->
    preorder_index s (path ++ ext) = Some j -> (i < j)%nat.
Proof.
  induction path as [| a path IH]; intros s ext i j Hext; simpl.
  - intros [= <-]; destruct ext as [| b ext]; [congruence|]; simpl.
    destruct (Tree s) as [tree|]; [| discriminate].
    destruct (nth_error tree b); [| discriminate].
    destruct (preorder_index _ ext); simpl; [| discriminate].
    intros [= <-]; lia.
  - destruct (Tree s) as [tree|]; [| discriminate].
    destruct (nth_error tree a) as [c|]; [| discriminate].
    destruct (preorder_index c path) as [i'|] eqn:Hi; [| discriminate].
    destruct (preorder_index c (path ++ ext)) as [j'|] eqn:Hj; [| discriminate].
    simpl; intros [= <-] [= <-].
    pose proof (IH c ext i' j' Hext Hi Hj); lia.
Qed.

Lemma preorder_sibling_order (path : list nat) :
  forall s a b ext ext' i j,
    (a < b)%nat ->
    preorder_index s (path ++ a :: ext) = Some i ->
    preorder_index s (path ++ b :: ext') = Some j -> (i < j)%nat.
Proof.
  induction path as [| x path IH]; intros s a b ext ext' i j Hab; simpl.
  - destruct (Tree s) as [tree|]; [| discriminate].
    destruct (nth_error tree a) as [ca|] eqn:Ha; [| discriminate].
    destruct (nth_error tree b) as [cb|] eqn:Hb; [| discriminate].
    destruct (preorder_index ca ext) as [i'|] eqn:Hi; [| discriminate].
    destruct (preorder_index cb ext') as [j'|] eqn:Hj; [| discriminate].
    simpl; intros [= <-] [= <-].
    pose proof (firstn_count_le tree a b ca Hab Ha).
    pose proof (preorder_index_lt _ _ _ Hi); lia.
  - destruct (Tree s) as [tree|]; [| discriminate].
    destruct (nth_error tree x) as [c|]; [| discriminate].
    destruct (preorder_index c (path ++ a :: ext)) as [i'|] eqn:Hi;
      [| discriminate].
    destruct (preorder_index c (path ++ b :: ext')) as [j'|] eqn:Hj;
      [| discriminate].
    simpl; intros [= <-] [= <-].
    pose proof (IH c a b ext ext' i' j' Hab Hi Hj); lia.
Qed.

End FlattenFacts.

Section FlattenEntries.

Lemma rflat_Override (rs : State) :
  forall depth, Forall (fun e => fOverride e = false) (rflat rs depth).
Proof.
  induction rs as [l src m ov | l src m tree ov IH] using State_ind';
    intro depth; rewrite rflat_eq; simpl; constructor; auto.
  induction IH as [| c tree Hc _ IHt]; simpl; [constructor|].
  apply Forall_app; auto.
Qed.

Lemma count_nodes_pick (tree : list State) :
  forall k, (k < count_nodes tree)%nat ->
    exists i c k',
      nth_error tree i = Some c /\ (k' < node_count c)%nat /\
      k = (count_nodes (firstn i tree) + k')%nat.
Proof.
  induction tree as [| c tree IH]; simpl; intros k Hk; [lia|].
  destruct (Nat.lt_ge_cases k (node_count c)) as [Hlt | Hge].
  - exists 0%nat, c, k; simpl; auto.
  - destruct (IH (k - node_count c)%nat) as (i & c' & k' & Hi & Hk' & E);
      [lia|].
    exists (S i), c', k'; simpl; repeat split; auto; lia.
Qed.

Lemma preorder_index_onto (s : State) :
  forall k, (k < node_count s)%nat ->
    exists path, preorder_index s path = Some k.
Proof.
  induction s as [l src m ov | l src m tree ov IH] using State_ind';
    intros [| k] Hk; try (exists []; reflexivity); simpl in Hk; [lia|].
  apply Nat.succ_lt_mono in Hk.
  destruct (count_nodes_pick tree k Hk) as (i & c & k' & Hi & Hk' & ->).
  rewrite Forall_forall in IH.
  destruct (IH c (nth_error_In _ _ Hi) k' Hk') as (path & Hp).
  exists (i :: path); simpl; rewrite Hi, Hp; reflexivity.
Qed.

Lemma Flatten_entry (T : State) (path : list nat) (n : State) :
  node_at T path = Some n ->
  exists k e,
    preorder_index T path = Some k /\
    nth_error (Flatten T) k = Some e /\
    entry_of n (Z.of_nat (List.length path)) e.
Proof.
  intro Hn.
  destruct (proj1 (node_at_index path T) (ex_intro _ n Hn)) as (k & Hk).
  destruct (rflat_nth path T 0 n k Hn Hk) as (e & He & Hent).
  exists k, e; auto.
Qed.

End FlattenEntries.

(** C6: [Flatten] yields one entry per node, in depth-first pre-order: its
    length is the number of nodes; the node at a path has its entry at the
    pre-order rank of the path, with the length of the path as depth (0 for
    the root); every rank below the length is the rank of a node; the
    entry of a node comes strictly before the entries of its descendants;
    and of two children of one node, the earlier one in [Tree], with all
    its descendants, comes before the later one and its descendants. *)
Theorem Flatten_preorder :
  forall T : State,
    List.length (Flatten T) = node_count T /\
    (forall path n,
        node_at T path = Some n ->
        exists k e,
          preorder_index T path = Some k /\
          nth_error (Flatten T) k = Some e /\
          entry_of n (Z.of_nat (List.length path)) e) /\
    (forall k, (k < List.length (Flatten T))%nat ->
               exists path n,
                 preorder_index T path = Some k /\ node_at T path = Some n) /\
    (forall path ext i j,
        ext <> [] ->
        preorder_index T path = Some i ->
        preorder_index T (path ++ ext) = Some j -> (i < j)%nat) /\
    (forall path a b ext ext' i j,
        (a < b)%nat ->
        preorder_index T (path ++ a :: ext) = Some i ->
        preorder_index T (path ++ b :: ext') = Some j -> (i < j)%nat).
Proof.
  intro T; unfold Flatten.
  split; [apply rflat_length|].
  split; [| split; [| split]].
  - apply Flatten_entry.
  - intros k Hk; rewrite rflat_length in Hk.
    destruct (preorder_index_onto T k Hk) as (path & Hp).
    destruct (proj2 (node_at_index path T) (ex_intro _ k Hp)) as (n & Hn).
    exists path, n; auto.
  - intros path; apply preorder_ancestor_first.
  - intros path; apply preorder_sibling_order.
Qed.

(** C7: every entry of [Flatten] carries the depth, level, source and
    message of its node, but its override flag is false whatever the
    node's flag is: [rflat] does not copy [Override].  The children "a" and
    "b" overridden through the wildcard have the flag set, and their
    entries do not. *)
Theorem Flatten_override_dropped :
  (forall (T : State) (path : list nat) (n : State),
      node_at T path = Some n ->
      exists k e,
        preorder_index T path = Some k /\
        nth_error (Flatten T) k = Some e /\
        entry_of n (Z.of_nat (List.length path)) e /\
        fOverride e = false) /\
  (let s :=
     Apply (Add (New "root") [Set_ (New "a") 200 ""; Set_ (New "b") 200 ""])
           (Some (Add (New "root") [Set_ (New "*") 500 "x"])) in
   node_at s [0%nat] = Some (mkState 500 "a" "x" None true) /\
   Flatten s = [mkFlatState 0 0 "root" "" false;
                mkFlatState 1 500 "a" "x" false;
                mkFlatState 1 500 "b" "x" false]).
Proof.
  split.
  - intros T path n Hn.
    destruct (Flatten_entry T path n Hn) as (k & e & Hk & He & Hent).
    exists k, e; repeat split; auto; try apply Hent.
    pose proof (rflat_Override T 0) as Hall.
    rewrite Forall_forall in Hall.
    apply Hall, (nth_error_In _ _ He).
  - split; reflexivity.
Qed.

(** ** String *)

Section StringFacts.

Lemma append_assoc (a b c : string) :
  ((a ++ b) ++ c = a ++ (b ++ c))%string.
Proof. induction a as [| x a IH]; simpl; [| rewrite IH]; reflexivity. Qed.

Lemma append_empty_r (a : string) : (a ++ "" = a)%string.
Proof. induction a as [| x a IH]; simpl; [| rewrite IH]; reflexivity. Qed.

Lemma spaces_add (a b : nat) :
  spaces (a + b) = (spaces a ++ spaces b)%string.
Proof.
  unfold spaces; induction a as [| a IH]; simpl; [| rewrite IH]; reflexivity.
Qed.

Lemma indent_loop (n : nat) (sb : Builder) :
  Nat.iter n (fun sb => WriteString sb "  ") sb
  = (sb ++ spaces (2 * n))%string.
Proof.
  induction n as [| n IH].
  - simpl; symmetry; apply append_empty_r.
  - change (Nat.iter (S n) (fun sb => WriteString sb "  ") sb)
      with (WriteString (Nat.iter n (fun sb => WriteString sb "  ") sb) "  ").
    rewrite IH; unfold WriteString.
    rewrite append_assoc; f_equal.
    replace (2 * S n)%nat with (2 * n + 2)%nat by lia.
    rewrite spaces_add; reflexivity.
Qed.

Lemma nonempty_test (x : string) :
  negb (x =? "")%string = match x with EmptyString => false | _ => true end.
Proof. destruct x; reflexivity. Qed.

Lemma String_loop (l : list FlatState) :
  forall sb : Builder,
    fold_left
      (fun (sb : Builder) item =>
         let sb :=
           Nat.iter (Z.to_nat (fDepth item))
                    (fun sb => WriteString sb "  ") sb in
         let sb :=
           if negb (fSource item =? "")%string
           then WriteString sb ("- [" ++ fSource item ++ "]: ")%string
           else sb in
         let sb :=
           WriteString sb
             (Sprintf_d (fLevel item) ++ " " ++ LevelString (fLevel item))%string in
         let sb :=
           if negb (fMessage item =? "")%string
           then WriteString (WriteString sb ": ") (fMessage item)
           else sb in
         WriteString sb newline)
      l sb
    = (sb ++ concat_all (map render_entry l))%string.
Proof.
  induction l as [| e l IH]; intro sb; simpl.
  - symmetry; apply append_empty_r.
  - rewrite IH, indent_loop, !nonempty_test.
    unfold render_entry, WriteString.
    destruct (fSource e), (fMessage e);
      rewrite ?append_assoc; simpl; rewrite ?append_assoc; reflexivity.
Qed.

End StringFacts.

(** C9: [String] is the concatenation, over the entries of [Flatten] in
    their order, of: two spaces per unit of depth, then "- [source]: " when
    the source is not empty, then the decimal level, a space and the band
    name of the level, then ": " and the message when the message is not
    empty, then a line feed. *)
Theorem String_renders_entries :
  forall s : State, String_ s = concat_all (map render_entry (Flatten s)).
Proof.
  intro s; unfold String_.
  rewrite String_loop; reflexivity.
Qed.

(** * Further properties *)

(** ** Add and lookup *)

Section AddFacts.

Lemma Add_app (l1 l2 : list State) (s : State) :
  Add (Add s l1) l2 = Add s (l1 ++ l2).
Proof. unfold Add; rewrite fold_left_app; reflexivity. Qed.

Lemma Add_head (s_list : list State) :
  forall s,
    Level (Add s s_list) = Level s /\ Source (Add s s_list) = Source s /\
    Message (Add s s_list) = Message s /\
    Override (Add s s_list) = Override s.
Proof.
  unfold Add; induction s_list as [| c l IH]; intro s; simpl; auto.
  destruct (IH (set_Tree (append (Tree s) c) s)) as (H1 & H2 & H3 & H4).
  rewrite H1, H2, H3, H4; auto.
Qed.

Lemma find_app {A : Type} (f : A -> bool) (l l' : list A) :
  find f (l ++ l') =
  match find f l with Some a => Some a | None => find f l' end.
Proof.
  induction l as [| a l IH]; simpl; [reflexivity|].
  destruct (f a); auto.
Qed.

End AddFacts.

(** X1: [Add] keeps level, source, message and override flag, and puts the
    new children after the present ones in call order, so the node count
    grows by the nodes of the added trees; without arguments nothing
    changes and a nil [Tree] stays nil; two calls in a row amount to one
    call with both argument lists. *)
Theorem Add_appends :
  forall (s : State) (l1 l2 : list State),
    Add s [] = s /\
    Add (Add s l1) l2 = Add s (l1 ++ l2) /\
    Level (Add s l1) = Level s /\ Source (Add s l1) = Source s /\
    Message (Add s l1) = Message s /\ Override (Add s l1) = Override s /\
    (l1 <> [] ->
     Tree (Add s l1) =
     Some (match Tree s with None => [] | Some tree => tree end ++ l1)) /\
    node_count (Add s l1) = (node_count s + count_nodes l1)%nat.
Proof.
  intros s l1 l2.
  destruct (Add_head l1 s) as (H1 & H2 & H3 & H4).
  repeat match goal with |- _ /\ _ => split end; auto.
  - apply Add_app.
  - apply Add_Tree.
  - destruct l1 as [| c l1]; [simpl; lia|].
    pose proof (proj2 (Add_Tree (c :: l1) s)) as HT.
    destruct (Add s (c :: l1)) as [? ? ? t ?]; simpl in HT |- *.
    rewrite HT by discriminate.
    fold (count_nodes (match Tree s with
                       | Some tree => tree | None => [] end ++ c :: l1)).
    rewrite count_nodes_app.
    destruct s as [? ? ? [tree|] ?]; simpl; reflexivity.
Qed.

(** X2: looking up a path in a node after [Add]: when the node already had
    a child with the first source, the lookup goes as before (that child
    shadows any added child of the same source, even if the rest of the
    path only exists below the added one); otherwise it continues in the
    first added child with that source. *)
Theorem FindBySource_Add :
  forall (s : State) (s_list : list State) (source : string)
         (rest : list string),
    FindBySource (Add s s_list) (source :: rest) =
    match FindBySource s [source] with
    | Some _ => FindBySource s (source :: rest)
    | None =>
        match find (fun c => (Source c =? source)%string) s_list with
        | Some c =>
            match rest with
            | [] => Some c
            | _ :: _ => FindBySource c rest
            end
        | None => None
        end
    end.
Proof.
  intros s s_list source rest.
  destruct s_list as [| c l].
  - rewrite (proj1 (Add_Tree [] s)); simpl find.
    rewrite (FindBySource_cons s source rest), (FindBySource_cons s source []).
    destruct (Tree s) as [tree|]; [| reflexivity].
    destruct (find _ tree); reflexivity.
  - rewrite (FindBySource_cons (Add s (c :: l))).
    rewrite (proj2 (Add_Tree (c :: l) s)) by discriminate.
    rewrite (FindBySource_cons s source rest), (FindBySource_cons s source []).
    rewrite find_app.
    destruct (Tree s) as [tree|]; [destruct (find _ tree)|]; reflexivity.
Qed.

(** X3: a lookup along a path in two parts is the lookup of the second
    part in the node found by the first part (both parts non-empty). *)
Theorem FindBySource_app :
  forall (s : State) (x : string) (p : list string) (y : string)
         (q : list string),
    FindBySource s ((x :: p) ++ y :: q) =
    match FindBySource s (x :: p) with
    | Some n => FindBySource n (y :: q)
    | None => None
    end.
Proof.
  intros s x p; revert s x.
  induction p as [| x' p IH]; intros s x y q.
  - change (([x] ++ y :: q)) with (x :: y :: q).
    rewrite (FindBySource_cons s x (y :: q)), (FindBySource_cons s x []).
    destruct (Tree s) as [tree|]; [| reflexivity].
    destruct (find _ tree); reflexivity.
  - change ((x :: x' :: p) ++ y :: q) with (x :: ((x' :: p) ++ y :: q)).
    rewrite (FindBySource_cons s x), (FindBySource_cons s x (x' :: p)).
    destruct (Tree s) as [tree|]; [| reflexivity].
    destruct (find _ tree) as [c|]; [| reflexivity].
    apply IH.
Qed.

(** X4: a node returned by [FindBySource] is a node of the tree, as many
    levels below the root as the path is long, and its source is the last
    element of the path. *)
Theorem FindBySource_found :
  forall (path : list string) (s n : State),
    FindBySource s path = Some n ->
    Source n = last path "" /\
    exists idx, List.length idx = List.length path /\
                node_at s idx = Some n.
Proof.
  induction path as [| x rest IH]; intros s n.
  - destruct s as [? ? ? [?|] ?]; discriminate.
  - rewrite FindBySource_cons.
    destruct (Tree s) as [tree|] eqn:Hs; [| discriminate].
    destruct (find _ tree) as [c|] eqn:Hf; [| discriminate].
    apply find_Source_first in Hf.
    destruct Hf as (pre & post & -> & Hc & Hpre).
    assert (Hi : nth_error (pre ++ c :: post) (List.length pre) = Some c).
    { rewrite nth_error_app2, Nat.sub_diag by lia; reflexivity. }
    destruct rest as [| y rest].
    + intros [= <-]; split; [exact Hc|].
      exists [List.length pre]; split; [reflexivity|].
      simpl; rewrite Hs, Hi; reflexivity.
    + intro H; destruct (IH c n H) as (Hl & idx & Hlen & Hn).
      split; [exact Hl|].
      exists (List.length pre :: idx); split;
        [cbn [List.length] in Hlen |- *; lia|].
      simpl; rewrite Hs, Hi; exact Hn.
Qed.

Lemma FindBySource_found_witness :
  exists idx, List.length idx = 2%nat /\
              node_at (Add (New "root") [Add (New "c") [Set_ (New "") 450 "w"]])
                      idx
              = Some (Set_ (New "") 450 "w").
Proof.
  apply (FindBySource_found
           ["c"; ""]
           (Add (New "root") [Add (New "c") [Set_ (New "") 450 "w"]])
           (Set_ (New "") 450 "w")).
  reflexivity.
Defined.

(** ** Aggregation, further *)

Section AggregateMore.

Lemma AggregateLevels_head (s : State) :
  Source (AggregateLevels s) = Source s /\
  Message (AggregateLevels s) = Message s /\
  Override (AggregateLevels s) = Override s /\
  Tree (AggregateLevels s) = option_map (map AggregateLevels) (Tree s).
Proof.
  rewrite AggregateLevels_eq.
  destruct s as [l src m [tree|] ov]; repeat split.
Qed.

Lemma AggregateLevels_shape (s : State) :
  shape (AggregateLevels s) = shape s.
Proof.
  induction s as [l src m ov | l src m tree ov IH] using State_ind';
    rewrite AggregateLevels_eq; simpl; [reflexivity|].
  do 2 f_equal; rewrite map_map.
  apply map_ext_Forall, IH.
Qed.

Lemma AggregateLevels_node_at (path : list nat) :
  forall s, node_at (AggregateLevels s) path
            = option_map AggregateLevels (node_at s path).
Proof.
  induction path as [| i path IH]; intro s; simpl; [reflexivity|].
  destruct (AggregateLevels_head s) as (_ & _ & _ & ->).
  destruct (Tree s) as [tree|]; simpl; [| reflexivity].
  rewrite nth_error_map.
  destruct (nth_error tree i); simpl; auto.
Qed.

Lemma max_from_max (levels : list Z) :
  forall a b, max_from (Z.max a b) levels = Z.max a (max_from b levels).
Proof.
  unfold max_from.
  induction levels as [| x levels IH]; intros a b; simpl; [reflexivity|].
  rewrite <- Z.max_assoc; apply IH.
Qed.

Lemma max_from_app (l1 l2 : list Z) (m : Z) :
  max_from m (l1 ++ l2) = max_from (max_from m l1) l2.
Proof. unfold max_from; apply fold_left_app. Qed.

(** The level a node has after aggregation, in terms of the leaves. *)
Lemma AggregateLevels_leaf_levels (s : State) :
  Level (AggregateLevels s) =
  match Tree s with
  | None => Level s
  | Some _ => max_from 0 (leaf_levels s)
  end.
Proof.
  induction s as [l src m ov | l src m tree ov IH] using State_ind';
    [reflexivity|].
  rewrite AggregateLevels_eq.
  cbn [Tree set_Level set_Tree Level leaf_levels].
  assert (G : forall m0, 0 <= m0 ->
                max_from m0 (map Level (map AggregateLevels tree))
                = max_from m0 (flat_map leaf_levels tree)); [| apply G; lia].
  induction IH as [| c tree Hc _ IHt]; intros m0 Hm0; [reflexivity|].
  cbn [map flat_map]; rewrite max_from_app.
  change (max_from m0 (Level (AggregateLevels c)
                       :: map Level (map AggregateLevels tree)))
    with (max_from (Z.max m0 (Level (AggregateLevels c)))
                   (map Level (map AggregateLevels tree))).
  rewrite IHt by lia.
  f_equal; rewrite Hc.
  destruct c as [cl csrc cm [ct|] cov]; cbn [Tree Level leaf_levels].
  - rewrite <- max_from_max; f_equal; lia.
  - reflexivity.
Qed.

Lemma FindBySource_nil (s : State) : FindBySource s [] = None.
Proof. destruct s as [? ? ? [?|] ?]; reflexivity. Qed.

End AggregateMore.

(** X5: lookup commutes with aggregation: a path leads to a node in the
    aggregated tree exactly when it does in the tree, and the node found is
    the aggregated node. *)
Theorem FindBySource_AggregateLevels :
  forall (path : list string) (s : State),
    FindBySource (AggregateLevels s) path
    = option_map AggregateLevels (FindBySource s path).
Proof.
  induction path as [| x rest IH]; intro s.
  - rewrite !FindBySource_nil; reflexivity.
  - rewrite !FindBySource_cons.
    destruct (AggregateLevels_head s) as (_ & _ & _ & ->).
    destruct (Tree s) as [tree|]; [| reflexivity].
    cbn [option_map].
    assert (E : find (fun s_it => (Source s_it =? x)%string)
                     (map AggregateLevels tree)
                = option_map AggregateLevels
                    (find (fun s_it => (Source s_it =? x)%string) tree)).
    { induction tree as [| c tree IHt]; [reflexivity|]; simpl.
      rewrite (proj1 (AggregateLevels_head c)).
      destruct (Source c =? x)%string; auto. }
    rewrite E.
    destruct (find _ tree) as [c|]; [| reflexivity].
    destruct rest; [reflexivity | apply IH].
Qed.

(** X6: aggregating twice is aggregating once. *)
Theorem AggregateLevels_idempotent :
  forall s : State, AggregateLevels (AggregateLevels s) = AggregateLevels s.
Proof.
  intro s; induction s as [l src m ov | l src m tree ov IH] using State_ind';
    [reflexivity|].
  rewrite (AggregateLevels_eq (mkState l src m (Some tree) ov)).
  cbn [Tree].
  rewrite AggregateLevels_eq.
  cbn [Tree set_Level set_Tree Level Source Message Override].
  assert (E : map AggregateLevels (map AggregateLevels tree)
              = map AggregateLevels tree).
  { rewrite map_map; apply map_ext_Forall, IH. }
  rewrite E; reflexivity.
Qed.

(** X7: aggregation changes levels only: the shape of the tree is kept,
    the node at any position of the aggregated tree is the aggregation of
    the node at that position, and every node keeps its source, message and
    override flag. *)
Theorem AggregateLevels_only_levels :
  forall s : State,
    shape (AggregateLevels s) = shape s /\
    (forall path,
        node_at (AggregateLevels s) path
        = option_map AggregateLevels (node_at s path)) /\
    (forall n,
        Source (AggregateLevels n) = Source n /\
        Message (AggregateLevels n) = Message n /\
        Override (AggregateLevels n) = Override n).
Proof.
  intro s; split; [apply AggregateLevels_shape|]; split.
  - intro path; apply AggregateLevels_node_at.
  - intro n; destruct (AggregateLevels_head n) as (H1 & H2 & H3 & _); auto.
Qed.

(** X8: after aggregation the level of a node with non-nil children is the
    greatest of 0 and the levels of all nodes with nil children below it,
    at any depth. *)
Theorem AggregateLevels_worst_leaf :
  forall (s : State) (tree : list State),
    Tree s = Some tree ->
    Level (AggregateLevels s) = max_from 0 (leaf_levels s).
Proof.
  intros s tree Hs; rewrite AggregateLevels_leaf_levels, Hs; reflexivity.
Qed.

Lemma AggregateLevels_worst_leaf_witness :
  Level (AggregateLevels
           (Add (New "root")
                [Set_ (New "a") 200 "";
                 Add (New "c") [Set_ (New "") 450 "w"]]))
  = max_from 0 [200; 450].
Proof.
  apply (AggregateLevels_worst_leaf
           (Add (New "root")
                [Set_ (New "a") 200 "";
                 Add (New "c") [Set_ (New "") 450 "w"]])
           [Set_ (New "a") 200 ""; Add (New "c") [Set_ (New "") 450 "w"]]).
  reflexivity.
Defined.

(** X9: in an aggregated tree no node is more severe than a node above it:
    below a node with non-nil children every node has at most that node's
    level. *)
Theorem AggregateLevels_dominates :
  forall (path : list nat) (s : State) (tree : list State) (n : State),
    Tree s = Some tree ->
    node_at (AggregateLevels s) path = Some n ->
    Level n <= Level (AggregateLevels s).
Proof.
  induction path as [| i path IH]; intros s tree n Hs.
  - intros [= <-]; lia.
  - simpl.
    destruct (AggregateLevels_head s) as (_ & _ & _ & ->).
    rewrite Hs; cbn [option_map]; rewrite nth_error_map.
    destruct (nth_error tree i) as [c|] eqn:Hi; [| discriminate].
    cbn [option_map]; intro Hn.
    assert (Hc : Level (AggregateLevels c) <= Level (AggregateLevels s)).
    { rewrite (AggregateLevels_eq s), Hs; cbn [Level set_Level].
      pose proof (proj2 (max_from_ge (map Level (map AggregateLevels tree)) 0))
        as Hall.
      rewrite Forall_forall in Hall; apply Hall.
      apply in_map, in_map, (nth_error_In _ _ Hi). }
    destruct (Tree c) as [ctree|] eqn:Hct.
    + pose proof (IH c ctree n Hct Hn); lia.
    + assert (E : AggregateLevels c = c)
        by (rewrite AggregateLevels_eq, Hct; reflexivity).
      rewrite E in Hn, Hc.
      destruct path as [| j path]; simpl in Hn.
      * injection Hn as <-; exact Hc.
      * rewrite Hct in Hn; discriminate.
Qed.

Lemma AggregateLevels_dominates_witness :
  450 <= Level (AggregateLevels
                  (Add (New "root")
                       [Set_ (New "a") 200 "";
                        Add (New "c") [Set_ (New "") 450 "w"]])).
Proof.
  apply (AggregateLevels_dominates
           [1%nat; 0%nat]
           (Add (New "root")
                [Set_ (New "a") 200 "";
                 Add (New "c") [Set_ (New "") 450 "w"]])
           [Set_ (New "a") 200 ""; Add (New "c") [Set_ (New "") 450 "w"]]
           (Set_ (New "") 450 "w")); reflexivity.
Defined.

(** X10: on a node with non-nil children the level given to [Set] does
    not survive aggregation, the message does: aggregating after [Set] is
    aggregating and then putting the message.  On a node with nil children
    aggregation keeps what [Set] assigned. *)
Theorem AggregateLevels_after_Set :
  forall (s : State) (level : Z) (message : string),
    AggregateLevels (Set_ s level message) =
    match Tree s with
    | Some _ => set_Message message (AggregateLevels s)
    | None => Set_ s level message
    end.
Proof.
  intros s level message.
  rewrite (AggregateLevels_eq (Set_ s level message)), (AggregateLevels_eq s).
  destruct s as [l src m [tree|] ov]; reflexivity.
Qed.

(** ** Apply, node by node *)

Section ApplyNodes.

Lemma in_list_selects (oc sc : State) :
  in_list oc sc = selects oc (Source sc).
Proof. reflexivity. Qed.

Lemma shape_source_shape (s : State) : shape_source (shape s) = Source s.
Proof. destruct s; reflexivity. Qed.

Lemma shape_tree_shape (s : State) :
  shape_tree (shape s) = option_map (map shape) (Tree s).
Proof. destruct s as [? ? ? [?|] ?]; reflexivity. Qed.

Lemma node_at_shape (path : list nat) :
  forall s t n,
    shape s = shape t -> node_at s path = Some n ->
    exists n', node_at t path = Some n' /\ shape n' = shape n.
Proof.
  induction path as [| i path IH]; intros s t n Hsh; simpl.
  - intros [= <-]; eauto.
  - pose proof (f_equal shape_tree Hsh) as Ht.
    rewrite !shape_tree_shape in Ht.
    destruct (Tree s) as [stree|]; [| discriminate].
    destruct (Tree t) as [ttree|]; [| discriminate].
    injection Ht as Ht.
    pose proof (f_equal (fun l => nth_error l i) Ht) as Hi; simpl in Hi.
    rewrite !nth_error_map in Hi.
    destruct (nth_error stree i) as [sc|]; [| discriminate].
    destruct (nth_error ttree i) as [tc|]; [| discriminate].
    injection Hi as Hi.
    apply IH, Hi.
Qed.

Lemma fold_apply_each_nth (app : State -> State -> State)
    (otree : list State) :
  forall stree i,
    nth_error (fold_left (apply_each app) otree stree) i =
    option_map
      (fun sc =>
         fold_left (fun sc oc => if in_list oc sc then app sc oc else sc)
                   otree sc)
      (nth_error stree i).
Proof.
  induction otree as [| oc otree IH]; intros stree i; simpl.
  - destruct (nth_error stree i); reflexivity.
  - rewrite IH, apply_each_nth.
    destruct (nth_error stree i); reflexivity.
Qed.

Lemma overridden_then (e acc : option (Z * string)) (n n1 n2 : State) :
  overridden acc n n1 -> overridden e n1 n2 ->
  overridden (match e with Some e => Some e | None => acc end) n n2.
Proof.
  destruct e as [[l m]|]; simpl; [tauto|].
  destruct acc as [[l m]|]; simpl; intuition congruence.
Qed.

Lemma Apply_node_at (path : list nat) :
  forall o s n,
    node_at s path = Some n ->
    exists n',
      node_at (Apply_node s o) path = Some n' /\
      overridden (effect o (shape s) path) n n'.
Proof.
  induction path as [| i path IH]; intros o s n.
  - intros [= <-]; exists (Apply_node s o); split; [reflexivity|].
    destruct (Apply_node_head s o) as (HL & _ & HM & HO).
    unfold replace_fields in HL, HM, HO.
    cbn [effect]; rewrite shape_source_shape.
    destruct (negb (Source o =? Source s)%string); unfold overridden;
      rewrite HL, HM, HO; repeat split.
  - cbn [node_at effect].
    rewrite Apply_node_eq, shape_tree_shape.
    destruct (Tree s) as [stree|] eqn:Hs; [| discriminate].
    destruct (nth_error stree i) as [sc|] eqn:Hi; [| discriminate].
    intro Hn.
    rewrite replace_fields_Tree, Hs.
    destruct (Tree o) as [otree|];
      [| exists n; rewrite replace_fields_Tree, Hs, Hi;
         split; [exact Hn | repeat split]].
    cbn [Tree set_Tree option_map].
    rewrite fold_apply_each_nth, nth_error_map, Hi; cbn [option_map].
    assert (G : forall (sc' n0 : State) (acc : option (Z * string)),
               shape sc' = shape sc ->
               node_at sc' path = Some n0 ->
               overridden acc n n0 ->
               exists n',
                 node_at
                   (fold_left
                      (fun sc oc =>
                         if in_list oc sc then Apply_node sc oc else sc)
                      otree sc') path = Some n' /\
                 overridden
                   (fold_left
                      (fun acc override_it =>
                         if selects override_it (shape_source (shape sc))
                         then match effect override_it (shape sc) path with
                              | Some e => Some e
                              | None => acc
                              end
                         else acc)
                      otree acc) n n').
    { clear Hs Hi Hn stree.
      induction otree as [| oc otree IHo]; intros sc' n0 acc Hsh Hn0 Hacc;
        cbn [fold_left]; [eauto|].
      rewrite in_list_selects, <- shape_source_shape, Hsh.
      destruct (selects oc (shape_source (shape sc))).
      - destruct (IH oc sc' n0 Hn0) as (n1 & Hn1 & Ho1).
        rewrite Hsh in Ho1.
        apply (IHo (Apply_node sc' oc) n1).
        + rewrite Apply_node_shape; exact Hsh.
        + exact Hn1.
        + eapply overridden_then; eauto.
      - apply (IHo sc' n0); assumption. }
    apply (G sc n None eq_refl Hn).
    repeat split.
Qed.

Lemma fields_ext (s t : State) :
  shape s = shape t ->
  (forall path n n',
      node_at s path = Some n -> node_at t path = Some n' ->
      Level n = Level n' /\ Message n = Message n' /\
      Override n = Override n') ->
  s = t.
Proof.
  revert t.
  induction s as [l src m ov | l src m stree ov IH] using State_ind';
    intros [l' src' m' [ttree|] ov'] Hsh Hf;
    try discriminate;
    destruct (Hf [] _ _ eq_refl eq_refl) as (HL & HM & HO);
    simpl in HL, HM, HO; subst.
  { injection Hsh as ->; reflexivity. }
  injection Hsh as -> Hsh.
  f_equal; f_equal.
  assert (Hc : forall i path n n',
             match nth_error stree i with
             | Some c => node_at c path | None => None end = Some n ->
             match nth_error ttree i with
             | Some c => node_at c path | None => None end = Some n' ->
             Level n = Level n' /\ Message n = Message n' /\
             Override n = Override n').
  { intros i path; apply (Hf (i :: path)). }
  clear Hf; revert ttree Hsh Hc.
  induction IH as [| c stree Hcext _ IHs]; intros [| c' ttree] Hsh Hc;
    try discriminate; [reflexivity|].
  injection Hsh as Hsh1 Hsh2.
  f_equal.
  - apply Hcext; [exact Hsh1|].
    intros path; apply (Hc 0%nat path).
  - apply IHs; [exact Hsh2|].
    intros i; apply (Hc (S i)).
Qed.

End ApplyNodes.

(** X11: what [Apply] does to one node depends only on the override and
    on sources and child structure of the tree: the node at any position
    keeps its shape, and either takes the level and message that [effect]
    gives for the position, with the override flag set, or keeps level,
    message and flag when [effect] gives none. *)
Theorem Apply_effect :
  forall (s o : State) (path : list nat) (n : State),
    node_at s path = Some n ->
    exists n',
      node_at (Apply s (Some o)) path = Some n' /\
      shape n' = shape n /\
      overridden (effect o (shape s) path) n n'.
Proof.
  intros s o path n Hn; simpl.
  destruct (Apply_node_at path o s n Hn) as (n' & Hn' & Ho).
  exists n'; repeat split; auto.
  destruct (node_at_shape path s (Apply_node s o) n
                          (eq_sym (Apply_node_shape o s)) Hn)
    as (n'' & Hn'' & Hsh).
  congruence.
Qed.

Lemma Apply_effect_witness :
  exists n',
    node_at (Apply (Add (New "root") [Set_ (New "a") 200 ""])
                   (Some (Add (New "root") [Set_ (New "*") 500 "x"])))
            [0%nat] = Some n' /\
    shape n' = shape (Set_ (New "a") 200 "") /\
    overridden (Some (500, "x")) (Set_ (New "a") 200 "") n'.
Proof.
  apply (Apply_effect (Add (New "root") [Set_ (New "a") 200 ""])
                      (Add (New "root") [Set_ (New "*") 500 "x"])
                      [0%nat] (Set_ (New "a") 200 "")).
  reflexivity.
Defined.

(** X12: [Apply] never clears an override flag, and every node whose level
    or message it changes has the flag set afterwards. *)
Theorem Apply_marks_changes :
  forall (s : State) (override : option State) (path : list nat)
         (n n' : State),
    node_at s path = Some n ->
    node_at (Apply s override) path = Some n' ->
    (Override n = true -> Override n' = true) /\
    (Level n' <> Level n \/ Message n' <> Message n -> Override n' = true).
Proof.
  intros s [o|] path n n' Hn; simpl.
  - destruct (Apply_node_at path o s n Hn) as (n1 & Hn1 & Ho).
    rewrite Hn1; intros [= <-].
    destruct (effect o (shape s) path) as [[l m]|]; simpl in Ho.
    + destruct Ho as (_ & _ & ->); auto.
    + destruct Ho as (-> & -> & ->); split; [auto | intros [[] | []]; auto].
  - rewrite Hn; intros [= <-]; split; [auto | intros [[] | []]; auto].
Qed.

Lemma Apply_marks_changes_witness :
  Override (mkState 500 "a" "x" None true) = true.
Proof.
  apply (Apply_marks_changes
           (Add (New "root") [Set_ (New "a") 200 ""])
           (Some (Add (New "root") [Set_ (New "*") 500 "x"]))
           [0%nat] (Set_ (New "a") 200 "") (mkState 500 "a" "x" None true));
    [reflexivity | reflexivity | left; discriminate].
Defined.

(** X13: applying the same override twice is applying it once. *)
Theorem Apply_idempotent :
  forall (s : State) (override : option State),
    Apply (Apply s override) override = Apply s override.
Proof.
  intros s [o|]; simpl; [| reflexivity].
  apply fields_ext.
  - apply Apply_node_shape.
  - intros path n2 n1 Hn2 Hn1.
    destruct (node_at_shape path (Apply_node s o) s n1
                            (Apply_node_shape o s) Hn1)
      as (n & Hn & _).
    destruct (Apply_node_at path o s n Hn) as (n1' & Hn1' & Ho1).
    destruct (Apply_node_at path o (Apply_node s o) n1 Hn1)
      as (n2' & Hn2' & Ho2).
    rewrite Apply_node_shape in Ho2.
    assert (n1' = n1) by congruence; assert (n2' = n2) by congruence; subst.
    destruct (effect o (shape s) path) as [[l m]|]; simpl in Ho1, Ho2.
    + destruct Ho1 as (-> & -> & ->), Ho2 as (-> & -> & ->); auto.
    + destruct Ho2 as (-> & -> & ->); auto.
Qed.

(** X14: an override that names every node exactly (the root's source,
    and no wildcard anywhere below) changes nothing: its children are
    selected only by children of the same source, and equal sources leave
    level and message alone. *)
Theorem Apply_exact_sources_noop :
  forall (o s : State),
    wildcard_free o = true -> Source o = Source s ->
    Apply s (Some o) = s.
Proof.
  intro o;
    induction o as [l src m ov | l src m otree ov IH] using State_ind';
    intros s Hfree Hsrc; unfold Apply; rewrite Apply_node_eq;
    rewrite (replace_fields_eq _ _ Hsrc); cbn [Tree]; [reflexivity|].
  destruct (Tree s) as [stree|] eqn:Hs; [| reflexivity].
  rewrite fold_apply_each_id;
    [destruct s; unfold set_Tree; simpl in *; congruence|].
  cbn [wildcard_free Tree] in Hfree.
  rewrite forallb_forall in Hfree; rewrite Forall_forall in IH.
  intros oc Hoc stree'.
  destruct (andb_prop _ _ (Hfree oc Hoc)) as [Hw Hfoc].
  apply negb_true_iff, String.eqb_neq in Hw.
  unfold apply_each; rewrite <- (map_id stree') at 2.
  apply map_ext; intro sc.
  destruct (in_list oc sc) eqn:Hin; [| reflexivity].
  apply (IH oc Hoc sc Hfoc).
  apply in_list_exact; assumption.
Qed.

Lemma Apply_exact_sources_noop_witness :
  Apply (Add (New "root") [Set_ (New "a") 200 ""; Set_ (New "b") 200 ""])
        (Some (Add (New "root") [Set_ (New "a") 600 "down"]))
  = Add (New "root") [Set_ (New "a") 200 ""; Set_ (New "b") 200 ""].
Proof.
  apply (Apply_exact_sources_noop
           (Add (New "root") [Set_ (New "a") 600 "down"])
           (Add (New "root") [Set_ (New "a") 200 ""; Set_ (New "b") 200 ""]));
    reflexivity.
Defined.

(** ** Flatten and lookup under Apply and aggregation *)

Section ShapeOnly.

Lemma rflat_shape (s : State) :
  forall t depth,
    shape s = shape t ->
    map fDepth (rflat s depth) = map fDepth (rflat t depth) /\
    map fSource (rflat s depth) = map fSource (rflat t depth).
Proof.
  induction s as [l src m ov | l src m stree ov IH] using State_ind';
    intros [l' src' m' [ttree|] ov'] depth Hsh; try discriminate;
    rewrite !rflat_eq; cbn [Tree Level Source Message map fDepth fSource].
  - injection Hsh as ->; auto.
  - injection Hsh as -> Hsh.
    assert (G : map fDepth (flat_map (fun c => rflat c (depth + 1)) stree)
                = map fDepth (flat_map (fun c => rflat c (depth + 1)) ttree)
                /\ map fSource (flat_map (fun c => rflat c (depth + 1)) stree)
                = map fSource (flat_map (fun c => rflat c (depth + 1)) ttree)).
    { revert ttree Hsh.
      induction IH as [| c stree Hc _ IHs]; intros [| c' ttree] Hsh;
        try discriminate; [auto|].
      injection Hsh as H1 H2.
      destruct (Hc c' (depth + 1) H1) as [Ha Hb].
      destruct (IHs ttree H2) as [Hc1 Hc2].
      cbn [flat_map]; rewrite !map_app, Ha, Hb, Hc1, Hc2; auto. }
    destruct G as [-> ->]; auto.
Qed.

Lemma rflat_AggregateLevels_message (s : State) :
  forall depth,
    map fMessage (rflat (AggregateLevels s) depth)
    = map fMessage (rflat s depth).
Proof.
  induction s as [l src m ov | l src m tree ov IH] using State_ind';
    intro depth; [reflexivity|].
  rewrite (rflat_eq (AggregateLevels _)), rflat_eq.
  destruct (AggregateLevels_head (mkState l src m (Some tree) ov))
    as (_ & -> & _ & ->).
  cbn [Tree Message option_map map fMessage]; f_equal.
  induction IH as [| c tree Hc _ IHt]; [reflexivity|].
  cbn [map flat_map]; rewrite !map_app, Hc, IHt; reflexivity.
Qed.

Lemma find_shape (source : string) (l : list State) :
  forall l',
    map shape l = map shape l' ->
    option_map shape (find (fun c => (Source c =? source)%string) l)
    = option_map shape (find (fun c => (Source c =? source)%string) l').
Proof.
  induction l as [| c l IH]; intros [| c' l'] H; try discriminate;
    [reflexivity|].
  injection H as H1 H2; simpl.
  rewrite <- (shape_source_shape c), <- (shape_source_shape c'), H1.
  destruct (shape_source (shape c') =? source)%string; simpl;
    [congruence | auto].
Qed.

Lemma FindBySource_shape (path : list string) :
  forall s t,
    shape s = shape t ->
    option_map shape (FindBySource s path)
    = option_map shape (FindBySource t path).
Proof.
  induction path as [| x rest IH]; intros s t Hsh.
  - rewrite !FindBySource_nil; reflexivity.
  - rewrite !FindBySource_cons.
    pose proof (f_equal shape_tree Hsh) as Ht.
    rewrite !shape_tree_shape in Ht.
    destruct (Tree s) as [stree|], (Tree t) as [ttree|]; try discriminate;
      [| reflexivity].
    injection Ht as Ht.
    pose proof (find_shape x stree ttree Ht) as Hf.
    destruct (find _ stree) as [c|], (find _ ttree) as [c'|];
      try discriminate; [| reflexivity].
    injection Hf as Hf.
    destruct rest; [simpl; congruence | apply IH, Hf].
Qed.

End ShapeOnly.

(** X15: neither [Apply] nor [AggregateLevels] changes which entries
    [Flatten] lists: the entries keep their number, depths and sources, in
    the same order (and, under aggregation, their messages). *)
Theorem Flatten_columns_kept :
  forall (s : State) (override : option State),
    map fDepth (Flatten (Apply s override)) = map fDepth (Flatten s) /\
    map fSource (Flatten (Apply s override)) = map fSource (Flatten s) /\
    List.length (Flatten (Apply s override)) = List.length (Flatten s) /\
    map fDepth (Flatten (AggregateLevels s)) = map fDepth (Flatten s) /\
    map fSource (Flatten (AggregateLevels s)) = map fSource (Flatten s) /\
    map fMessage (Flatten (AggregateLevels s)) = map fMessage (Flatten s).
Proof.
  intros s override; unfold Flatten.
  assert (Hsh : shape (Apply s override) = shape s)
    by (destruct override; simpl; auto using Apply_node_shape).
  destruct (rflat_shape _ _ 0 Hsh) as [H1 H2].
  destruct (rflat_shape _ _ 0 (AggregateLevels_shape s)) as [H3 H4].
  repeat match goal with |- _ /\ _ => split end; auto.
  - rewrite <- (length_map fDepth), H1; apply length_map.
  - apply rflat_AggregateLevels_message.
Qed.

(** X16: [Apply] makes no path resolvable or unresolvable: a lookup in
    the overridden tree finds a node exactly when the lookup in the tree
    does, and the two nodes have the same source and the same structure
    below them. *)
Theorem FindBySource_Apply :
  forall (s : State) (override : option State) (path : list string),
    option_map shape (FindBySource (Apply s override) path)
    = option_map shape (FindBySource s path).
Proof.
  intros s override path; apply FindBySource_shape.
  destruct override; simpl; auto using Apply_node_shape.
Qed.

Section FlattenSteps.

Lemma steps_ok_app (l1 l2 : list FlatState) :
  forall prev,
    steps_ok prev l1 ->
    steps_ok (last_depth prev l1) l2 ->
    steps_ok prev (l1 ++ l2).
Proof.
  induction l1 as [| e l1 IH]; intros prev H1 H2; simpl in *; [exact H2|].
  destruct H1 as [He H1]; split; [exact He | apply IH; assumption].
Qed.

Lemma steps_ok_weaken (l : list FlatState) (prev prev' : Z) :
  prev <= prev' -> steps_ok prev l -> steps_ok prev' l.
Proof. destruct l; simpl; [auto|]; intros ? [? ?]; split; [lia | auto]. Qed.

Lemma rflat_depth_ge (rs : State) :
  forall depth, Forall (fun e => depth <= fDepth e) (rflat rs depth).
Proof.
  induction rs as [l src m ov | l src m tree ov IH] using State_ind';
    intro depth; rewrite rflat_eq; cbn [Tree];
    (constructor; [simpl; lia|]); [constructor|].
  induction IH as [| c tree Hc _ IHt]; cbn [flat_map]; [constructor|].
  apply Forall_app; split; [| exact IHt].
  eapply Forall_impl; [| apply (Hc (depth + 1))].
  simpl; intros; lia.
Qed.

Lemma last_depth_ge (l : list FlatState) (depth : Z) :
  Forall (fun e => depth <= fDepth e) l ->
  forall prev, depth <= prev -> depth <= last_depth prev l.
Proof.
  intros H; induction H as [| e l He _ IH]; intros prev Hp; simpl; auto.
Qed.

Lemma rflat_steps (rs : State) :
  forall depth, steps_ok (depth - 1) (rflat rs depth).
Proof.
  induction rs as [l src m ov | l src m tree ov IH] using State_ind';
    intro depth; rewrite rflat_eq; cbn [Tree steps_ok fDepth];
    (split; [lia|]); [exact I|].
  assert (G : forall prev, depth <= prev ->
                steps_ok prev (flat_map (fun c => rflat c (depth + 1)) tree)).
  { induction IH as [| c tree Hc _ IHt]; intros prev Hp; [exact I|].
    cbn [flat_map]; apply steps_ok_app.
    - apply (steps_ok_weaken _ (depth + 1 - 1)); [lia | apply Hc].
    - apply IHt.
      apply last_depth_ge; [| exact Hp].
      eapply Forall_impl; [| apply (rflat_depth_ge c (depth + 1))].
      simpl; intros; lia. }
  apply G; lia.
Qed.

Lemma steps_ok_nth (l : list FlatState) :
  forall prev k a b,
    steps_ok prev l ->
    nth_error l k = Some a -> nth_error l (S k) = Some b ->
    fDepth b <= fDepth a + 1.
Proof.
  induction l as [| e l IH]; intros prev [| k] a b H Ha Hb;
    try discriminate; destruct H as [_ H].
  - injection Ha as <-.
    destruct l as [| e' l]; [discriminate|].
    injection Hb as <-; apply H.
  - apply (IH (fDepth e) k a b H Ha Hb).
Qed.

End FlattenSteps.

(** X17: in the list that [Flatten] returns the root comes first, at
    depth 0, every later entry is at depth 1 or more, and from one entry
    to the next the depth grows by at most one. *)
Theorem Flatten_depth_steps :
  forall s : State,
    option_map fDepth (nth_error (Flatten s) 0) = Some 0 /\
    (forall k a b,
        nth_error (Flatten s) k = Some a ->
        nth_error (Flatten s) (S k) = Some b ->
        1 <= fDepth b <= fDepth a + 1).
Proof.
  intro s; unfold Flatten; split.
  - rewrite rflat_eq; reflexivity.
  - intros k a b Ha Hb; split.
    + rewrite rflat_eq in Hb; cbn [nth_error] in Hb.
      destruct (Tree s) as [tree|]; [| destruct k; discriminate].
      assert (Hall : Forall (fun e => 1 <= fDepth e)
                            (flat_map (fun c => rflat c (0 + 1)) tree)).
      { clear Hb; induction tree as [| c tree IHt]; cbn [flat_map];
          [constructor|].
        apply Forall_app; split; [apply (rflat_depth_ge c 1) | exact IHt]. }
      rewrite Forall_forall in Hall.
      apply Hall, (nth_error_In _ _ Hb).
    + apply (steps_ok_nth _ _ k a b (rflat_steps s 0) Ha Hb).
Qed.

(** ** Add, then Flatten or AggregateLevels *)

(** X18: after [Add] the flat list is the flat list of the node followed
    by the flat lists of the added trees, in call order, one level below
    the node. *)
Theorem Flatten_Add :
  forall (s : State) (s_list : list State),
    Flatten (Add s s_list)
    = Flatten s ++ flat_map (fun c => rflat c 1) s_list.
Proof.
  intros s [| c l]; unfold Flatten.
  - rewrite (proj1 (Add_Tree [] s)), app_nil_r; reflexivity.
  - rewrite (rflat_eq (Add s (c :: l))), (rflat_eq s).
    destruct (Add_head (c :: l) s) as (-> & -> & -> & _).
    rewrite (proj2 (Add_Tree (c :: l) s)) by discriminate.
    change (0 + 1) with 1.
    destruct (Tree s) as [tree|]; [| reflexivity].
    rewrite flat_map_app; reflexivity.
Qed.

(** X19: aggregating after [Add] of at least one child: the level is the
    greatest of the level aggregated before (0 if the node had nil
    children, whatever its level was) and the aggregated levels of the
    added children; so adding children never lowers the aggregated level
    of a node with non-nil children. *)
Theorem AggregateLevels_Add :
  forall (s c : State) (l : list State),
    Level (AggregateLevels (Add s (c :: l)))
    = max_from (match Tree s with
                | Some _ => Level (AggregateLevels s)
                | None => 0
                end)
               (map Level (map AggregateLevels (c :: l))) /\
    (Tree s <> None ->
     Level (AggregateLevels s) <= Level (AggregateLevels (Add s (c :: l)))).
Proof.
  intros s c l.
  assert (E : Level (AggregateLevels (Add s (c :: l)))
              = max_from (match Tree s with
                          | Some _ => Level (AggregateLevels s)
                          | None => 0
                          end)
                         (map Level (map AggregateLevels (c :: l)))).
  { rewrite (AggregateLevels_eq (Add s (c :: l))).
    rewrite (proj2 (Add_Tree (c :: l) s)) by discriminate.
    cbn [Level set_Level].
    rewrite (AggregateLevels_eq s).
    destruct (Tree s) as [tree|]; cbn [Level set_Level app]; [| reflexivity].
    rewrite !map_app; apply max_from_app. }
  split; [exact E|].
  intro Hs; rewrite E.
  destruct (Tree s); [apply max_from_ge | congruence].
Qed.

(** ** Sample runs *)

Section Samples.

Let sample : State :=
  Add (New "root")
      [Set_ (New "a") 200 ""; Set_ (New "b") 200 "";
       Add (New "c") [Set_ (New "") 450 "slow"]].

Example Sprintf_d_samples :
  Sprintf_d 0 = "0" /\ Sprintf_d 200 = "200" /\ Sprintf_d (-5) = "-5".
Proof. repeat split. Qed.

Example String_sample :
  String_ (AggregateLevels sample) =
  ("- [root]: 450 Warning" ++ newline ++
   "  - [a]: 200 OK" ++ newline ++
   "  - [b]: 200 OK" ++ newline ++
   "  - [c]: 450 Warning" ++ newline ++
   "    450 Warning: slow" ++ newline)%string.
Proof. reflexivity. Qed.

Example FindBySource_sample :
  FindBySource sample ["c"; ""] = Some (Set_ (New "") 450 "slow") /\
  FindBySource sample ["x"; "y"] = None /\
  FindBySource sample ["a"; "y"] = None.
Proof. repeat split. Qed.

(** An override that names child "a" exactly is filtered in and then
    skipped by the source comparison. *)
Example Apply_exact_source_sample :
  Apply sample (Some (Add (New "root") [Set_ (New "a") 600 ""])) = sample.
Proof. reflexivity. Qed.

End Samples.
